(** * Distributed cache: consistent-hash ring, bounded shards, invalidation bus

    A shallow embedding of [distributed_cache_system.py]:
    - [CacheNode]        the bounded shard with its LRU / LFU / TTL policy,
    - [DistributedCache] the ring of virtual points and the routing facade,
    - [PubSubSystem]     the channel-keyed invalidation bus.

    Conventions of the embedding.
    - A Python [str] is the byte string of its UTF-8 encoding ([string]).
    - [time.time()] is an input of every operation that reads the clock;
      readings live in [Z] (a discrete, totally ordered clock), and
      one reading serves the whole operation.  [time.time() + ttl] is the
      exact sum, where the code rounds to a float: the general statements
      below never say what the sum is, and the concrete ones use sums
      that floats represent exactly.
    - Python [int] is [Z]; [len] is [Z.of_nat (length _)].
    - The four dictionaries of a shard are insertion-ordered ([pydict]):
      [min(d, key=d.get)] depends on that order when values tie.
    - [node_map] and [subscribers] are only looked up, sized or sorted by
      key, so they are finite maps ([gmap]).
    - Shards are objects shared by the ring and the bus: they live in a
      [heap] and are named by references.
    - A Python exception is the [Raise] result of the [res] monad. *)

From Stdlib Require Import ZArith Lia.
From Stdlib Require Ascii String DecimalString.
From stdpp Require Import base option list functions gmap strings sorting.

Local Open Scope Z_scope.

(** ** SHA-256 (FIPS 180-4), the digest behind [hashlib.sha256] *)

Module Sha256.

Definition w32 (x : Z) : Z := x mod 2 ^ 32.
Definition add32 (x y : Z) : Z := w32 (x + y).
Definition not32 (x : Z) : Z := Z.lxor x 0xffffffff.
Definition shr (n x : Z) : Z := Z.shiftr x n.
Definition rotr (n x : Z) : Z :=
  Z.lor (Z.shiftr x n) (w32 (Z.shiftl x (32 - n))).

Definition Ch (x y z : Z) : Z := Z.lxor (Z.land x y) (Z.land (not32 x) z).
Definition Maj (x y z : Z) : Z :=
  Z.lxor (Z.lxor (Z.land x y) (Z.land x z)) (Z.land y z).
Definition bsig0 (x : Z) : Z := Z.lxor (Z.lxor (rotr 2 x) (rotr 13 x)) (rotr 22 x).
Definition bsig1 (x : Z) : Z := Z.lxor (Z.lxor (rotr 6 x) (rotr 11 x)) (rotr 25 x).
Definition ssig0 (x : Z) : Z := Z.lxor (Z.lxor (rotr 7 x) (rotr 18 x)) (shr 3 x).
Definition ssig1 (x : Z) : Z := Z.lxor (Z.lxor (rotr 17 x) (rotr 19 x)) (shr 10 x).

(** The round constants and the initial chaining words are, as the
    standard defines them, the first 32 bits of the fractional parts of
    the cube roots of the first 64 primes and of the square roots of the
    first 8 primes. *)
Definition is_prime (p : Z) : bool :=
  forallb (fun d => negb (p mod d =? 0)) (seqZ 2 (p - 2)).

Definition primes (count : nat) : list Z :=
  firstn count (List.filter is_prime (seqZ 2 310)).

(** [iroot bits e n r]: the largest root below [r + 2 ^ bits] whose [e]-th
    power does not exceed [n], found bit by bit from the top. *)
Fixpoint iroot (bits : nat) (e n r : Z) : Z :=
  match bits with
  | O => r
  | S b =>
      let c := r + 2 ^ Z.of_nat b in
      iroot b e n (if c ^ e <=? n then c else r)
  end.

Definition frac32 (e p : Z) : Z := w32 (iroot 36 e (p * 2 ^ (32 * e)) 0).

Definition K : list Z := map (frac32 3) (primes 64).

(** The eight chaining words. *)
Record state : Type := State {
  ha : Z; hb : Z; hc : Z; hd : Z; he : Z; hf : Z; hg : Z; hh : Z }.

Definition H0 : state :=
  let w (i : nat) := frac32 2 (nth i (primes 8) 0) in
  State (w 0%nat) (w 1%nat) (w 2%nat) (w 3%nat)
        (w 4%nat) (w 5%nat) (w 6%nat) (w 7%nat).

(** Padding: a 1 bit, zeros up to 56 mod 64 bytes, the bit length on
    eight big-endian bytes. *)
Definition be_bytes (n : nat) (x : Z) : list Z :=
  map (fun i => (x / 2 ^ (8 * Z.of_nat i)) mod 256) (rev (seq 0 n)).

Definition pad (msg : list Z) : list Z :=
  let len := Z.of_nat (length msg) in
  let zeros := Z.to_nat ((55 - len) mod 64) in
  msg ++ 0x80 :: repeat 0 zeros ++ be_bytes 8 (8 * len).

Definition be_word (bs : list Z) : Z :=
  fold_left (fun acc b => acc * 256 + b) bs 0.

(** [chunks k n l]: the first [n] consecutive slices of [k] elements. *)
Fixpoint chunks {A} (k n : nat) (l : list A) : list (list A) :=
  match n with
  | O => []
  | S n' => firstn k l :: chunks k n' (skipn k l)
  end.

Definition blocks (bytes : list Z) : list (list Z) :=
  map (fun blk => map be_word (chunks 4 16 blk))
      (chunks 64 (length bytes / 64) bytes).

(** Message schedule: sixteen block words extended to sixty-four. *)
Definition extend (w : list Z) : list Z :=
  let t := length w in
  let at_ (i : nat) := nth (t - i) w 0 in
  w ++ [add32 (add32 (add32 (ssig1 (at_ 2%nat)) (at_ 7%nat))
                     (ssig0 (at_ 15%nat))) (at_ 16%nat)].

Definition schedule (blk : list Z) : list Z := Nat.iter 48 extend blk.

Definition round (s : state) (kw : Z * Z) : state :=
  let '(k, w) := kw in
  let t1 := add32 (add32 (add32 (add32 (hh s) (bsig1 (he s)))
                                (Ch (he s) (hf s) (hg s))) k) w in
  let t2 := add32 (bsig0 (ha s)) (Maj (ha s) (hb s) (hc s)) in
  State (add32 t1 t2) (ha s) (hb s) (hc s) (add32 (hd s) t1) (he s) (hf s) (hg s).

Definition compress (s : state) (blk : list Z) : state :=
  let r := fold_left round (combine K (schedule blk)) s in
  State (add32 (ha s) (ha r)) (add32 (hb s) (hb r))
        (add32 (hc s) (hc r)) (add32 (hd s) (hd r))
        (add32 (he s) (he r)) (add32 (hf s) (hf r))
        (add32 (hg s) (hg r)) (add32 (hh s) (hh r)).

Definition bytes_of_string (s : string) : list Z :=
  map (fun c => Z.of_nat (Ascii.nat_of_ascii c)) (String.list_ascii_of_string s).

Definition digest (s : string) : state :=
  fold_left compress (blocks (pad (bytes_of_string s))) H0.

(** [int(hexdigest, 16)]: the digest read as one big-endian number. *)
Definition to_int (s : state) : Z :=
  fold_left (fun acc w => acc * 2 ^ 32 + w)
    [ha s; hb s; hc s; hd s; he s; hf s; hg s; hh s] 0.

Definition sha256_int (s : string) : Z := to_int (digest s).

End Sha256.


(** ** Python exceptions as an error monad *)

Inductive exn : Type := ValueError | KeyError | IndexError.

Inductive res (A : Type) : Type :=
  | OK (a : A)
  | Raise (e : exn).
Arguments OK {A} a.
Arguments Raise {A} e.

#[global] Instance res_ret : MRet res := @OK.
#[global] Instance res_bind : MBind res := fun A B f m =>
  match m with
  | OK a => f a
  | Raise e => Raise e
  end.
#[global] Instance res_fmap : FMap res := fun A B f m =>
  match m with
  | OK a => OK (f a)
  | Raise e => Raise e
  end.

(** ** Insertion-ordered dictionaries *)

Section pydict.
Context {K V : Type} `{EqDecision K}.

(** Bindings in insertion order; the operations below keep keys unique. *)
Definition pydict : Type := list (K * V).

Definition keys (d : pydict) : list K := map fst d.

(** [d.get(k)] *)
Fixpoint dict_get (d : pydict) (k : K) : option V :=
  match d with
  | [] => None
  | (k', v) :: d' => if decide (k = k') then Some v else dict_get d' k
  end.

(** [k in d] *)
Definition dict_mem (k : K) (d : pydict) : bool :=
  match dict_get d k with
  | Some _ => true
  | None => false
  end.

(** [d[k] = v]: an existing key keeps its position, a new one goes last. *)
Fixpoint dict_set (k : K) (v : V) (d : pydict) : pydict :=
  match d with
  | [] => [(k, v)]
  | (k', v') :: d' =>
      if decide (k = k') then (k, v) :: d' else (k', v') :: dict_set k v d'
  end.

(** [del d[k]], used under a [k in d] guard only. *)
Fixpoint dict_del (k : K) (d : pydict) : pydict :=
  match d with
  | [] => []
  | (k', v') :: d' =>
      if decide (k = k') then dict_del k d' else (k', v') :: dict_del k d'
  end.
End pydict.
Arguments pydict : clear implicits.

(** [min(d, key=d.get)]: the first key, in insertion order, whose value is
    smallest; [ValueError] on an empty dictionary.  Each key is paired
    with the value [d.get] returns for it. *)
Definition min_step {K : Type} (best kv : K * Z) : K * Z :=
  if kv.2 <? best.2 then kv else best.

Definition py_min_key {K : Type} (d : pydict K Z) : res K :=
  match d with
  | [] => Raise ValueError
  | kv :: d' => OK (fold_left min_step d' kv).1
  end.

(** ** CacheNode: one bounded shard *)

Module CacheNode.

Record t : Type := Build {
  node_id : string;
  max_size : Z;
  cache : pydict string string;
  eviction_policy : string;
  access_times : pydict string Z;
  access_counts : pydict string Z;
  ttl : pydict string Z
}.

Definition with_cache (n : t) (c : pydict string string) : t :=
  Build (node_id n) (max_size n) c (eviction_policy n)
        (access_times n) (access_counts n) (ttl n).
Definition with_access_times (n : t) (a : pydict string Z) : t :=
  Build (node_id n) (max_size n) (cache n) (eviction_policy n)
        a (access_counts n) (ttl n).
Definition with_access_counts (n : t) (a : pydict string Z) : t :=
  Build (node_id n) (max_size n) (cache n) (eviction_policy n)
        (access_times n) a (ttl n).
Definition with_ttl (n : t) (a : pydict string Z) : t :=
  Build (node_id n) (max_size n) (cache n) (eviction_policy n)
        (access_times n) (access_counts n) a.

(** [CacheNode(node_id, eviction_policy, max_size)]: no argument is
    checked. *)
Definition __init__ (id policy : string) (size : Z) : t :=
  Build id size [] policy [] [] [].

Definition len (n : t) : Z := Z.of_nat (length (cache n)).

Definition invalidate (n : t) (key : string) : t :=
  if dict_mem key (cache n) then
    Build (node_id n) (max_size n) (dict_del key (cache n)) (eviction_policy n)
          (if dict_mem key (access_times n)
           then dict_del key (access_times n) else access_times n)
          (if dict_mem key (access_counts n)
           then dict_del key (access_counts n) else access_counts n)
          (if dict_mem key (ttl n) then dict_del key (ttl n) else ttl n)
  else n.

(** The keys the TTL sweep collects before it removes any of them. *)
Definition expired_keys (n : t) (now : Z) : list string :=
  keys (filter (fun kv => kv.2 <= now) (ttl n)).

Definition _evict (n : t) (now : Z) : res t :=
  if (eviction_policy n =? "LRU")%string then
    key_to_evict ← py_min_key (access_times n);
    OK (invalidate n key_to_evict)
  else if (eviction_policy n =? "LFU")%string then
    key_to_evict ← py_min_key (access_counts n);
    OK (invalidate n key_to_evict)
  else if (eviction_policy n =? "TTL")%string then
    OK (fold_left invalidate (expired_keys n now) n)
  else OK n.

Definition get (n : t) (now : Z) (key : string) : res (t * option string) :=
  match dict_get (cache n) key with
  | Some value =>
      let expired :=
        if (eviction_policy n =? "TTL")%string then
          match dict_get (ttl n) key with
          | Some expiry => now >? expiry
          | None => false
          end
        else false in
      if expired then OK (invalidate n key, None)
      else if (eviction_policy n =? "LRU")%string then
        OK (with_access_times n (dict_set key now (access_times n)), Some value)
      else if (eviction_policy n =? "LFU")%string then
        match dict_get (access_counts n) key with
        | Some c =>
            OK (with_access_counts n (dict_set key (c + 1) (access_counts n)),
                Some value)
        | None => Raise KeyError
        end
      else OK (n, Some value)
  | None => OK (n, None)
  end.

Definition store (n : t) (now : Z) (key value : string) (ttl_arg : option Z) : t :=
  let n1 := with_cache n (dict_set key value (cache n)) in
  if (eviction_policy n =? "LRU")%string then
    with_access_times n1 (dict_set key now (access_times n1))
  else if (eviction_policy n =? "LFU")%string then
    with_access_counts n1 (dict_set key 1 (access_counts n1))
  else if (eviction_policy n =? "TTL")%string then
    match ttl_arg with
    | Some d => with_ttl n1 (dict_set key (now + d) (ttl n1))
    | None => n1
    end
  else n1.

Definition set (n : t) (now : Z) (key value : string) (ttl_arg : option Z) : res t :=
  n1 ← (if len n >=? max_size n then _evict n now else OK n);
  OK (store n1 now key value ttl_arg).

(** A call of the public interface, with the clock reading it sees. *)
Inductive call : Type :=
  | CallGet (now : Z) (key : string)
  | CallSet (now : Z) (key value : string) (ttl_arg : option Z)
  | CallInvalidate (key : string).

Definition step (n : t) (c : call) : res t :=
  match c with
  | CallGet now key => fst <$> get n now key
  | CallSet now key value ttl_arg => set n now key value ttl_arg
  | CallInvalidate key => OK (invalidate n key)
  end.

(** A call that raises leaves the shard as it was (every [raise] above
    precedes the first mutation), so a run stops at the first one. *)
Fixpoint run (n : t) (cs : list call) : res t :=
  match cs with
  | [] => OK n
  | c :: cs' => n' ← step n c; run n' cs'
  end.

(** The states a shard goes through: built by [__init__], then moved by
    calls that return. *)
Inductive reachable : t -> Prop :=
  | reach_init id policy size : reachable (__init__ id policy size)
  | reach_step n c n' : reachable n -> step n c = OK n' -> reachable n'.

End CacheNode.

(** ** The object store

    A reference names one shard object; every holder of the reference
    sees the mutations made through any other. *)

Definition ref : Type := nat.
Definition heap : Type := ref -> CacheNode.t.

(** ** DistributedCache: the ring and the routing facade *)

Module DistributedCache.

Record t : Type := Build {
  nodes : list ref;
  node_map : gmap Z ref
}.

(** [int(hashlib.sha256(key.encode()).hexdigest(), 16)] *)
Definition _hash (key : string) : Z := Sha256.sha256_int key.

(** [str(i)] *)
Definition str (i : nat) : string :=
  DecimalString.NilEmpty.string_of_uint (Nat.to_uint i).

(** [f"{node.node_id}_{i}"] *)
Definition vnode_name (id : string) (i : nat) : string :=
  id +:+ "_" +:+ str i.

(** The body of the inner loop: [node_map[hash_key] = node]. *)
Definition add_vnode (h : heap) (node : ref) (m : gmap Z ref) (i : nat)
  : gmap Z ref :=
  <[_hash (vnode_name (CacheNode.node_id (h node)) i) := node]> m.

Definition add_node (h : heap) (m : gmap Z ref) (node : ref) : gmap Z ref :=
  fold_left (add_vnode h node) (seq 0 3) m.

Definition _create_node_map (h : heap) (nodes : list ref) : gmap Z ref :=
  fold_left (add_node h) nodes ∅.

Definition __init__ (h : heap) (nodes : list ref) : t :=
  Build nodes (_create_node_map h nodes).

(** [sorted(self.node_map.keys())] *)
Definition sorted_keys (dc : t) : list Z :=
  merge_sort Z.le (map_to_list (node_map dc)).*1.

(** [self.node_map[node_key]] *)
Definition node_at (dc : t) (node_key : Z) : res ref :=
  match node_map dc !! node_key with
  | Some node => OK node
  | None => Raise KeyError
  end.

Definition _get_node (dc : t) (key : string) : res ref :=
  let hash_key := _hash key in
  match List.find (fun node_key => bool_decide (hash_key <= node_key))
                  (sorted_keys dc) with
  | Some node_key => node_at dc node_key
  | None =>
      match sorted_keys dc with
      | first :: _ => node_at dc first
      | [] => Raise IndexError
      end
  end.

Definition get (dc : t) (h : heap) (now : Z) (key : string)
  : res (heap * option string) :=
  node ← _get_node dc key;
  r ← CacheNode.get (h node) now key;
  OK (<[node := r.1]> h, r.2).

Definition set (dc : t) (h : heap) (now : Z) (key value : string)
    (ttl_arg : option Z) : res heap :=
  node ← _get_node dc key;
  n ← CacheNode.set (h node) now key value ttl_arg;
  OK (<[node := n]> h).

Definition invalidate (dc : t) (h : heap) (key : string) : res heap :=
  node ← _get_node dc key;
  OK (<[node := CacheNode.invalidate (h node) key]> h).

End DistributedCache.

(** ** PubSubSystem: the invalidation bus *)

Module PubSubSystem.

Record t : Type := Build { subscribers : gmap string (list ref) }.

Definition __init__ : t := Build ∅.

Definition subscribe (ps : t) (channel : string) (node : ref) : t :=
  let subs :=
    match subscribers ps !! channel with
    | Some l => subscribers ps
    | None => <[channel := []]> (subscribers ps)
    end in
  Build (alter (fun l => (l ++ [node])%list) channel subs).

(** The loop of [publish].  Next to the heap it returns the calls
    [node.invalidate(message)] it made, oldest first: invalidation is
    idempotent, so the heap alone cannot tell one call from two. *)
Fixpoint notify (subs : list ref) (message : string) (h : heap)
  : heap * list (ref * string) :=
  match subs with
  | [] => (h, [])
  | node :: rest =>
      let r := notify rest message
                 (<[node := CacheNode.invalidate (h node) message]> h) in
      (r.1, (node, message) :: r.2)
  end.

Definition publish (ps : t) (h : heap) (channel message : string)
  : heap * list (ref * string) :=
  match subscribers ps !! channel with
  | Some subs => notify subs message h
  | None => (h, [])
  end.

End PubSubSystem.

(** * Vocabulary of the statements *)

(** ** Shards *)

(** What every reachable shard satisfies, whatever its policy and
    capacity: keys are unique, metadata never outlives its entry, the
    policy's own map covers every entry, the other maps stay empty. *)
Record wf (n : CacheNode.t) : Prop := Wf {
  wf_cache : NoDup (keys (CacheNode.cache n));
  wf_times_nodup : NoDup (keys (CacheNode.access_times n));
  wf_counts_nodup : NoDup (keys (CacheNode.access_counts n));
  wf_ttl_nodup : NoDup (keys (CacheNode.ttl n));
  wf_times : keys (CacheNode.access_times n) ⊆ keys (CacheNode.cache n);
  wf_counts : keys (CacheNode.access_counts n) ⊆ keys (CacheNode.cache n);
  wf_ttl : keys (CacheNode.ttl n) ⊆ keys (CacheNode.cache n);
  wf_lru : CacheNode.eviction_policy n = "LRU" ->
           keys (CacheNode.cache n) ⊆ keys (CacheNode.access_times n);
  wf_lfu : CacheNode.eviction_policy n = "LFU" ->
           keys (CacheNode.cache n) ⊆ keys (CacheNode.access_counts n);
  wf_not_lru : CacheNode.eviction_policy n <> "LRU" -> CacheNode.access_times n = [];
  wf_not_lfu : CacheNode.eviction_policy n <> "LFU" -> CacheNode.access_counts n = [];
  wf_not_ttl : CacheNode.eviction_policy n <> "TTL" -> CacheNode.ttl n = []
}.

(** The branch [_evict], [get] and [set] take. *)
Inductive policy_case (p : string) : Prop :=
  | IsLRU : p = "LRU" -> policy_case p
  | IsLFU : p = "LFU" -> policy_case p
  | IsTTL : p = "TTL" -> policy_case p
  | IsOther : p <> "LRU" -> p <> "LFU" -> p <> "TTL" -> policy_case p.

(** The two policies that evict by a per-key counter or timestamp. *)
Definition counting (n : CacheNode.t) : Prop :=
  CacheNode.eviction_policy n = "LRU" \/ CacheNode.eviction_policy n = "LFU".

(** The test of the sweep in [_evict]: [expiry <= current_time]. *)
Definition is_expired (n : CacheNode.t) (now : Z) (k : string) : bool :=
  match dict_get (CacheNode.ttl n) k with
  | Some expiry => bool_decide (expiry <= now)
  | None => false
  end.

(** The sequence of the LRU scenario, with the clock readings of its calls. *)
Definition lru_scenario (t1 t2 t3 t4 : Z) : list CacheNode.call :=
  [CacheNode.CallSet t1 "A" "1" None; CacheNode.CallSet t2 "B" "2" None;
   CacheNode.CallGet t3 "A"; CacheNode.CallSet t4 "C" "3" None].

(** A TTL shard of capacity 2, full at time 10 with two live entries. *)
Definition ttl_full : CacheNode.t :=
  CacheNode.Build "node1" 2 [("a", "x"); ("b", "y")] "TTL" [] [] [("a", 60)].

(** A full LRU shard of capacity 2: set(A,1) at time 1, set(B,2) at time 2. *)
Definition lru_full : CacheNode.t :=
  CacheNode.Build "node2" 2 [("A", "1"); ("B", "2")] "LRU"
                  [("A", 1); ("B", 2)] [] [].

(** The TTL shard after set("driver_1", "available", ttl=5) at time 100. *)
Definition ttl_entry : CacheNode.t :=
  CacheNode.Build "node1" 10 [("driver_1", "available")] "TTL" [] []
                  [("driver_1", 105)].

(** The test of [get] on a TTL shard: [time.time() > self.ttl[key]]. *)
Definition lapsed (n : CacheNode.t) (now : Z) (k : string) : bool :=
  if String.eqb (CacheNode.eviction_policy n) "TTL" then
    match dict_get (CacheNode.ttl n) k with
    | Some expiry => now >? expiry
    | None => false
    end
  else false.

(** A full LFU shard of capacity 2: set(A,1), set(B,2), then get(A) twice. *)
Definition lfu_full : CacheNode.t :=
  CacheNode.Build "node3" 2 [("A", "1"); ("B", "2")] "LFU" []
                  [("A", 3); ("B", 1)] [].

(** ** The digest *)

Definition word (x : Z) : Prop := 0 <= x < 2 ^ 32.

Definition words (s : Sha256.state) : Prop :=
  word (Sha256.ha s) /\ word (Sha256.hb s) /\ word (Sha256.hc s)
  /\ word (Sha256.hd s) /\ word (Sha256.he s) /\ word (Sha256.hf s)
  /\ word (Sha256.hg s) /\ word (Sha256.hh s).

(** ** The ring *)

(** The virtual points in the order the two loops visit them. *)
Definition node_points (h : heap) (node : ref) : list (Z * ref) :=
  (fun i => (DistributedCache._hash
               (DistributedCache.vnode_name (CacheNode.node_id (h node)) i),
             node)) <$> seq 0 3.

Definition vpoints (h : heap) (nodes : list ref) : list (Z * ref) :=
  nodes ≫= node_points h.

Definition put (m : gmap Z ref) (p : Z * ref) : gmap Z ref := <[p.1 := p.2]> m.

(** The shards of [main], and the ring built from them. *)
Definition main_heap : heap := fun r =>
  match r with
  | 0%nat => CacheNode.__init__ "node1" "TTL" 10
  | 1%nat => CacheNode.__init__ "node2" "LRU" 10
  | _ => CacheNode.__init__ "node3" "LFU" 10
  end.

Definition main_cache : DistributedCache.t :=
  DistributedCache.__init__ main_heap [0; 1; 2]%nat.

(** Two shards configured with the same identifier. *)
Definition twin_heap : heap := fun _ => CacheNode.__init__ "node1" "LRU" 10.

(** ** The bus *)

(** The subscriber list of a channel; a channel nobody subscribed to has
    none. *)
Definition subscribers_of (ps : PubSubSystem.t) (channel : string) : list ref :=
  default [] (PubSubSystem.subscribers ps !! channel).

(** A bus as it is set up: [subscribe] calls on a fresh bus. *)
Definition subscribe_all (evs : list (string * ref)) : PubSubSystem.t :=
  fold_left (fun ps e => PubSubSystem.subscribe ps e.1 e.2) evs
            PubSubSystem.__init__.

(** Shards 0 and 1 hold driver_1; shard 2 holds another key. *)
Definition warm_heap : heap := fun r =>
  match r with
  | 0%nat => CacheNode.Build "node1" 10 [("driver_1", "available")] "TTL" [] []
               [("driver_1", 5)]
  | 1%nat => CacheNode.Build "node2" 10 [("driver_1", "busy"); ("user_1", "p")]
               "LRU" [("driver_1", 0); ("user_1", 1)] [] []
  | _ => CacheNode.Build "node3" 10 [("route_1", "r")] "LFU" [] [("route_1", 1)] []
  end.

(** * Properties *)

(** ** Dictionaries *)

Section pydict_facts.
Context {K V : Type} `{EqDecision K}.
Implicit Types (d : pydict K V) (k : K) (v : V).

Lemma dict_get_Some_elem d k v : dict_get d k = Some v -> (k, v) ∈ d.
Proof.
  induction d as [|[k' v'] d IH]; simpl; [done|].
  case_decide as Hk; intros Hg.
  - injection Hg as ->. subst k'. left.
  - right. by apply IH.
Qed.

Lemma dict_get_is_Some d k : is_Some (dict_get d k) <-> k ∈ keys d.
Proof.
  induction d as [|[k' v'] d IH]; simpl.
  - split; [by intros [? ?] | by intros ?%elem_of_nil].
  - case_decide as Hk.
    + subst k'. split; [intros _; left | by eauto].
    + rewrite IH, elem_of_cons. intuition congruence.
Qed.

Lemma dict_get_None d k : dict_get d k = None <-> k ∉ keys d.
Proof. rewrite <- dict_get_is_Some, eq_None_not_Some. done. Qed.

Lemma dict_mem_true d k : dict_mem k d = true <-> k ∈ keys d.
Proof.
  rewrite <- dict_get_is_Some. unfold dict_mem.
  destruct (dict_get d k); split; eauto; try done.
Qed.

Lemma dict_mem_false d k : dict_mem k d = false <-> k ∉ keys d.
Proof.
  rewrite <- dict_mem_true. destruct (dict_mem k d); split; congruence.
Qed.

Lemma dict_get_set_eq d k v : dict_get (dict_set k v d) k = Some v.
Proof.
  induction d as [|[k' v'] d IH]; simpl.
  - by rewrite decide_True.
  - case_decide as Hk; simpl.
    + by rewrite decide_True.
    + by rewrite decide_False.
Qed.

Lemma dict_get_set_ne d k k' v :
  k <> k' -> dict_get (dict_set k v d) k' = dict_get d k'.
Proof.
  intros Hne. induction d as [|[k0 v0] d IH]; simpl.
  - by rewrite decide_False.
  - case_decide as Hk; simpl.
    + subst k0. by rewrite !decide_False.
    + by rewrite IH.
Qed.

Lemma dict_get_del_eq d k : dict_get (dict_del k d) k = None.
Proof.
  induction d as [|[k' v'] d IH]; simpl; [done|].
  case_decide as Hk; simpl; [done|]. by rewrite decide_False.
Qed.

Lemma dict_get_del_ne d k k' :
  k <> k' -> dict_get (dict_del k d) k' = dict_get d k'.
Proof.
  intros Hne. induction d as [|[k0 v0] d IH]; simpl; [done|].
  case_decide as Hk; simpl.
  - subst k0. by rewrite decide_False.
  - by rewrite IH.
Qed.

Lemma elem_of_keys_set d k k' v :
  k' ∈ keys (dict_set k v d) <-> k' = k \/ k' ∈ keys d.
Proof.
  rewrite <- !dict_get_is_Some.
  destruct (decide (k = k')) as [->|Hne].
  - rewrite dict_get_set_eq. split; eauto.
  - rewrite dict_get_set_ne by done. intuition congruence.
Qed.

Lemma elem_of_keys_del d k k' :
  k' ∈ keys (dict_del k d) <-> k' <> k /\ k' ∈ keys d.
Proof.
  rewrite <- !dict_get_is_Some.
  destruct (decide (k = k')) as [->|Hne].
  - rewrite dict_get_del_eq. split; [by intros [? ?] | by intros [? _]].
  - rewrite dict_get_del_ne by done. intuition congruence.
Qed.

(** Overwriting keeps the keys, in their order. *)
Lemma keys_set_old d k v : k ∈ keys d -> keys (dict_set k v d) = keys d.
Proof.
  induction d as [|[k' v'] d IH]; simpl.
  - by intros ?%elem_of_nil.
  - intros Hin. case_decide as Hk; simpl; [by subst|].
    f_equal. apply IH. apply elem_of_cons in Hin as [?|?]; [congruence | done].
Qed.

(** A new key goes last. *)
Lemma keys_set_new d k v : k ∉ keys d -> keys (dict_set k v d) = keys d ++ [k].
Proof.
  induction d as [|[k' v'] d IH]; simpl; [done|].
  intros Hin. apply not_elem_of_cons in Hin as [Hne Hin].
  rewrite decide_False by done. simpl. f_equal. by apply IH.
Qed.

Lemma length_dict_set d k v :
  length (dict_set k v d) = if dict_mem k d then length d else S (length d).
Proof.
  assert (Hl : forall d', length d' = length (keys d'))
    by (intros d'; unfold keys; by rewrite length_map).
  rewrite !Hl. destruct (dict_mem k d) eqn:Hm.
  - apply dict_mem_true in Hm. by rewrite keys_set_old.
  - apply dict_mem_false in Hm. rewrite keys_set_new by done.
    rewrite length_app. simpl. lia.
Qed.

Lemma NoDup_keys_set d k v : NoDup (keys d) -> NoDup (keys (dict_set k v d)).
Proof.
  intros Hnd. destruct (decide (k ∈ keys d)) as [Hin|Hin].
  - by rewrite keys_set_old.
  - rewrite keys_set_new by done. apply NoDup_app. split_and!; [done| |].
    + intros x Hx ->%list_elem_of_singleton. done.
    + apply NoDup_singleton.
Qed.

Lemma keys_del_notin d k : k ∉ keys d -> dict_del k d = d.
Proof.
  induction d as [|[k' v'] d IH]; simpl; [done|].
  intros [Hne Hin]%not_elem_of_cons.
  rewrite decide_False by done. f_equal. by apply IH.
Qed.

Lemma NoDup_keys_del d k : NoDup (keys d) -> NoDup (keys (dict_del k d)).
Proof.
  induction d as [|[k' v'] d IH]; simpl; [done|].
  intros [Hk' Hnd]%NoDup_cons. case_decide as Hk; simpl; [by apply IH|].
  apply NoDup_cons. split; [|by apply IH].
  rewrite elem_of_keys_del. tauto.
Qed.

(** Deleting a key that is present removes one binding. *)
Lemma length_dict_del d k :
  NoDup (keys d) -> k ∈ keys d -> S (length (dict_del k d)) = length d.
Proof.
  induction d as [|[k' v'] d IH]; simpl.
  - by intros _ ?%elem_of_nil.
  - intros [Hk' Hnd]%NoDup_cons Hin. case_decide as Hk; simpl.
    + subst k'. by rewrite keys_del_notin.
    + f_equal. apply IH; [done|]. apply elem_of_cons in Hin as [?|?]; [congruence | done].
Qed.

Lemma length_dict_del_le d k : (length (dict_del k d) <= length d)%nat.
Proof.
  induction d as [|[k' v'] d IH]; simpl; [done|].
  case_decide; simpl; lia.
Qed.
End pydict_facts.

(** [min] returns a key whose value no other value undercuts; among equal
    values the earliest binding wins. *)
Lemma fold_min_step_spec {K : Type} (d : pydict K Z) (b : K * Z) :
  let r := fold_left min_step d b in
  r ∈ b :: d /\ r.2 <= b.2 /\ Forall (fun kv => r.2 <= kv.2) d.
Proof.
  revert b. induction d as [|kv d IH]; intros b; simpl.
  - split_and!; [left | lia | constructor].
  - destruct (IH (min_step b kv)) as (Hin & Hle & Hall).
    unfold min_step in *. destruct (kv.2 <? b.2) eqn:Hlt.
    + apply Z.ltb_lt in Hlt. split_and!.
      * by right.
      * lia.
      * constructor; done.
    + apply Z.ltb_ge in Hlt. split_and!.
      * apply elem_of_cons in Hin as [->|Hin]; [left | right; by right].
      * done.
      * constructor; [lia | done].
Qed.

Lemma py_min_key_spec {K : Type} (d : pydict K Z) :
  d <> [] ->
  exists k v, py_min_key d = OK k /\ (k, v) ∈ d /\ Forall (fun kv => v <= kv.2) d.
Proof.
  destruct d as [|b d]; [done|]. intros _.
  destruct (fold_min_step_spec d b) as (Hin & Hle & Hall).
  destruct (fold_left min_step d b) as [k v] eqn:Hr.
  exists k, v. simpl. rewrite Hr. split_and!; [done | done |].
  constructor; done.
Qed.

Lemma py_min_key_empty {K : Type} : py_min_key (@nil (K * Z)) = Raise ValueError.
Proof. reflexivity. Qed.

Lemma elem_of_keys {K V : Type} (d : pydict K V) (k : K) (v : V) :
  (k, v) ∈ d -> k ∈ keys d.
Proof. intros Hin. unfold keys. apply list_elem_of_fmap. by exists (k, v). Qed.

(** ** Shards: the representation invariant *)

Section shard_invariant.
Import CacheNode.
Implicit Types (n : t) (key k : string).

Lemma policy_cases (p : string) : policy_case p.
Proof.
  destruct (decide (p = "LRU")); [by apply IsLRU|].
  destruct (decide (p = "LFU")); [by apply IsLFU|].
  destruct (decide (p = "TTL")); [by apply IsTTL|].
  by apply IsOther.
Qed.

Lemma eqb_policy_false (p q : string) : p <> q -> String.eqb p q = false.
Proof. apply String.eqb_neq. Qed.

Lemma wf_init id policy size : wf (__init__ id policy size).
Proof.
  split; simpl; try done; try apply NoDup_nil_2.
Qed.

(** Under the invariant [invalidate] deletes the key from all four maps. *)
Lemma invalidate_spec n key :
  wf n ->
  invalidate n key =
    Build (node_id n) (max_size n) (dict_del key (cache n)) (eviction_policy n)
          (dict_del key (access_times n)) (dict_del key (access_counts n))
          (dict_del key (ttl n)).
Proof.
  intros Hwf. unfold invalidate.
  destruct (dict_mem key (cache n)) eqn:Hc.
  - f_equal.
    + destruct (dict_mem key (access_times n)) eqn:Hm; [done|].
      apply dict_mem_false in Hm. by rewrite keys_del_notin.
    + destruct (dict_mem key (access_counts n)) eqn:Hm; [done|].
      apply dict_mem_false in Hm. by rewrite keys_del_notin.
    + destruct (dict_mem key (ttl n)) eqn:Hm; [done|].
      apply dict_mem_false in Hm. by rewrite keys_del_notin.
  - apply dict_mem_false in Hc.
    assert (key ∉ keys (access_times n)) by (intros ?%(wf_times n Hwf); done).
    assert (key ∉ keys (access_counts n)) by (intros ?%(wf_counts n Hwf); done).
    assert (key ∉ keys (ttl n)) by (intros ?%(wf_ttl n Hwf); done).
    rewrite !keys_del_notin by done. by destruct n.
Qed.

Lemma dict_del_subseteq {V W : Type} (d : pydict string V) (e : pydict string W) k :
  keys d ⊆ keys e -> keys (dict_del k d) ⊆ keys (dict_del k e).
Proof.
  intros Hsub x. rewrite !elem_of_keys_del. intros [? ?]. split; [done|].
  by apply Hsub.
Qed.

Lemma dict_del_nil_eq {V : Type} (d : pydict string V) k :
  d = [] -> dict_del k d = [].
Proof. by intros ->. Qed.

Lemma wf_invalidate n key : wf n -> wf (invalidate n key).
Proof.
  intros Hwf. rewrite invalidate_spec by done. destruct Hwf.
  split; simpl; intros; auto using NoDup_keys_del, dict_del_subseteq, dict_del_nil_eq.
Qed.

Lemma invalidate_policy n key : eviction_policy (invalidate n key) = eviction_policy n.
Proof. unfold invalidate. by destruct (dict_mem key (cache n)). Qed.

Lemma invalidate_max_size n key : max_size (invalidate n key) = max_size n.
Proof. unfold invalidate. by destruct (dict_mem key (cache n)). Qed.

Lemma invalidate_node_id n key : node_id (invalidate n key) = node_id n.
Proof. unfold invalidate. by destruct (dict_mem key (cache n)). Qed.

(** [invalidate] empties the slot of [key], also outside the invariant. *)
Lemma invalidate_cache n key : cache (invalidate n key) = dict_del key (cache n).
Proof.
  unfold invalidate. destruct (dict_mem key (cache n)) eqn:Hc; [done|].
  apply dict_mem_false in Hc. by rewrite keys_del_notin.
Qed.

Lemma invalidate_absent n key : dict_get (cache (invalidate n key)) key = None.
Proof. rewrite invalidate_cache. apply dict_get_del_eq. Qed.

Lemma invalidate_other n key k :
  key <> k -> dict_get (cache (invalidate n key)) k = dict_get (cache n) k.
Proof. intros Hne. rewrite invalidate_cache. by apply dict_get_del_ne. Qed.

(** A key that is not stored: nothing changes. *)
Lemma invalidate_noop n key : dict_get (cache n) key = None -> invalidate n key = n.
Proof. intros Hg. unfold invalidate, dict_mem. by rewrite Hg. Qed.

Lemma invalidate_idempotent n key :
  invalidate (invalidate n key) key = invalidate n key.
Proof. apply invalidate_noop, invalidate_absent. Qed.

Lemma wf_sweep ks n : wf n -> wf (fold_left invalidate ks n).
Proof.
  revert n. induction ks as [|k ks IH]; intros n Hwf; simpl; [done|].
  apply IH. by apply wf_invalidate.
Qed.

Lemma sweep_policy ks n :
  eviction_policy (fold_left invalidate ks n) = eviction_policy n.
Proof.
  revert n. induction ks as [|k ks IH]; intros n; simpl; [done|].
  rewrite IH. apply invalidate_policy.
Qed.

Lemma sweep_max_size ks n : max_size (fold_left invalidate ks n) = max_size n.
Proof.
  revert n. induction ks as [|k ks IH]; intros n; simpl; [done|].
  rewrite IH. apply invalidate_max_size.
Qed.

Lemma sweep_length ks n :
  (length (cache (fold_left invalidate ks n)) <= length (cache n))%nat.
Proof.
  revert n. induction ks as [|k ks IH]; intros n; simpl; [done|].
  etrans; [apply IH|]. rewrite invalidate_cache. apply length_dict_del_le.
Qed.
End shard_invariant.

(** ** Shards: the four operations, branch by branch *)

Section shard_operations.
Import CacheNode.
Implicit Types (n : t) (key k : string) (now : Z).

Lemma evict_lru n now :
  eviction_policy n = "LRU" ->
  _evict n now = k ← py_min_key (access_times n); OK (invalidate n k).
Proof. intros Hp. unfold _evict. by rewrite Hp. Qed.

Lemma evict_lfu n now :
  eviction_policy n = "LFU" ->
  _evict n now = k ← py_min_key (access_counts n); OK (invalidate n k).
Proof. intros Hp. unfold _evict. by rewrite Hp. Qed.

Lemma evict_ttl n now :
  eviction_policy n = "TTL" ->
  _evict n now = OK (fold_left invalidate (expired_keys n now) n).
Proof. intros Hp. unfold _evict. by rewrite Hp. Qed.

Lemma evict_other n now :
  eviction_policy n <> "LRU" -> eviction_policy n <> "LFU" ->
  eviction_policy n <> "TTL" -> _evict n now = OK n.
Proof.
  intros H1 H2 H3. unfold _evict. by rewrite !eqb_policy_false.
Qed.

(** Whatever [_evict] returns is some sweep of [invalidate] calls. *)
Lemma evict_is_sweep n now n' :
  _evict n now = OK n' -> exists ks, n' = fold_left invalidate ks n.
Proof.
  destruct (policy_cases (eviction_policy n)) as [Hp|Hp|Hp|H1 H2 H3].
  - rewrite evict_lru by done. destruct (py_min_key _) as [k|]; [|done].
    intros [= <-]. by exists [k].
  - rewrite evict_lfu by done. destruct (py_min_key _) as [k|]; [|done].
    intros [= <-]. by exists [k].
  - rewrite evict_ttl by done. intros [= <-]. by eexists.
  - rewrite evict_other by done. intros [= <-]. by exists [].
Qed.

Lemma wf_evict n now n' : wf n -> _evict n now = OK n' -> wf n'.
Proof. intros Hwf [ks ->]%evict_is_sweep. by apply wf_sweep. Qed.

Lemma evict_policy n now n' :
  _evict n now = OK n' -> eviction_policy n' = eviction_policy n.
Proof. intros [ks ->]%evict_is_sweep. apply sweep_policy. Qed.

Lemma evict_max_size n now n' : _evict n now = OK n' -> max_size n' = max_size n.
Proof. intros [ks ->]%evict_is_sweep. apply sweep_max_size. Qed.

(** On an LRU shard that holds something, [_evict] removes one stored
    key whose last-access time is smallest. *)
Lemma evict_lru_victim n now :
  wf n -> eviction_policy n = "LRU" -> cache n <> [] ->
  exists k v, _evict n now = OK (invalidate n k)
    /\ (k, v) ∈ access_times n
    /\ Forall (fun kv => v <= kv.2) (access_times n)
    /\ k ∈ keys (cache n).
Proof.
  intros Hwf Hp Hne. rewrite evict_lru by done.
  destruct (py_min_key_spec (access_times n)) as (k & v & -> & Hin & Hmin).
  - intros Hnil. destruct (cache n) as [|[k0 v0] c] eqn:Hc; [done|].
    assert (Hk : k0 ∈ keys (access_times n)).
    { apply (wf_lru n Hwf Hp). rewrite Hc. simpl. left. }
    rewrite Hnil in Hk. by apply elem_of_nil in Hk.
  - exists k, v. split_and!; try done.
    apply (wf_times n Hwf). by eapply elem_of_keys.
Qed.

Lemma evict_lfu_victim n now :
  wf n -> eviction_policy n = "LFU" -> cache n <> [] ->
  exists k v, _evict n now = OK (invalidate n k)
    /\ (k, v) ∈ access_counts n
    /\ Forall (fun kv => v <= kv.2) (access_counts n)
    /\ k ∈ keys (cache n).
Proof.
  intros Hwf Hp Hne. rewrite evict_lfu by done.
  destruct (py_min_key_spec (access_counts n)) as (k & v & -> & Hin & Hmin).
  - intros Hnil. destruct (cache n) as [|[k0 v0] c] eqn:Hc; [done|].
    assert (Hk : k0 ∈ keys (access_counts n)).
    { apply (wf_lfu n Hwf Hp). rewrite Hc. simpl. left. }
    rewrite Hnil in Hk. by apply elem_of_nil in Hk.
  - exists k, v. split_and!; try done.
    apply (wf_counts n Hwf). by eapply elem_of_keys.
Qed.

(** What [set] writes once room has been made. *)
Lemma store_lru n now key value ta :
  eviction_policy n = "LRU" ->
  store n now key value ta =
    Build (node_id n) (max_size n) (dict_set key value (cache n)) "LRU"
          (dict_set key now (access_times n)) (access_counts n) (ttl n).
Proof.
  intros Hp. unfold store. rewrite Hp. simpl.
  unfold with_access_times, with_access_counts, with_cache. simpl. by rewrite Hp.
Qed.

Lemma store_lfu n now key value ta :
  eviction_policy n = "LFU" ->
  store n now key value ta =
    Build (node_id n) (max_size n) (dict_set key value (cache n)) "LFU"
          (access_times n) (dict_set key 1 (access_counts n)) (ttl n).
Proof.
  intros Hp. unfold store. rewrite Hp. simpl.
  unfold with_access_times, with_access_counts, with_cache. simpl. by rewrite Hp.
Qed.

Lemma store_ttl n now key value ta :
  eviction_policy n = "TTL" ->
  store n now key value ta =
    Build (node_id n) (max_size n) (dict_set key value (cache n)) "TTL"
          (access_times n) (access_counts n)
          (match ta with
           | Some d => dict_set key (now + d) (ttl n)
           | None => ttl n
           end).
Proof.
  intros Hp. unfold store. rewrite Hp.
  destruct ta; unfold with_ttl, with_cache; simpl; by rewrite Hp.
Qed.

Lemma store_other n now key value ta :
  eviction_policy n <> "LRU" -> eviction_policy n <> "LFU" ->
  eviction_policy n <> "TTL" ->
  store n now key value ta = with_cache n (dict_set key value (cache n)).
Proof. intros H1 H2 H3. unfold store. by rewrite !eqb_policy_false. Qed.

Lemma store_cache n now key value ta :
  cache (store n now key value ta) = dict_set key value (cache n).
Proof.
  unfold store.
  repeat (match goal with |- context [if ?b then _ else _] => destruct b end);
    try done. by destruct ta.
Qed.

Lemma store_policy n now key value ta :
  eviction_policy (store n now key value ta) = eviction_policy n.
Proof.
  unfold store.
  repeat (match goal with |- context [if ?b then _ else _] => destruct b end);
    try done. by destruct ta.
Qed.

Lemma store_max_size n now key value ta :
  max_size (store n now key value ta) = max_size n.
Proof.
  unfold store.
  repeat (match goal with |- context [if ?b then _ else _] => destruct b end);
    try done. by destruct ta.
Qed.

Lemma keys_set_mono {V W : Type} (d : pydict string V) (e : pydict string W) k v w :
  keys d ⊆ keys e -> keys (dict_set k v d) ⊆ keys (dict_set k w e).
Proof.
  intros Hsub x. rewrite !elem_of_keys_set. intros [?|?]; [by left|].
  right. by apply Hsub.
Qed.

Lemma keys_set_grow {V W : Type} (d : pydict string V) (e : pydict string W) k w :
  keys d ⊆ keys e -> keys d ⊆ keys (dict_set k w e).
Proof.
  intros Hsub x Hx. rewrite elem_of_keys_set. right. by apply Hsub.
Qed.

Lemma wf_store n now key value ta : wf n -> wf (store n now key value ta).
Proof.
  intros Hwf.
  destruct (policy_cases (eviction_policy n)) as [Hp|Hp|Hp|H1 H2 H3].
  - rewrite store_lru by done. destruct Hwf. rewrite Hp in *.
    split; simpl; intros; try done;
      auto using NoDup_keys_set, keys_set_mono, keys_set_grow.
  - rewrite store_lfu by done. destruct Hwf. rewrite Hp in *.
    split; simpl; intros; try done;
      auto using NoDup_keys_set, keys_set_mono, keys_set_grow.
  - rewrite store_ttl by done. destruct Hwf. rewrite Hp in *.
    split; simpl; intros; try done;
      auto using NoDup_keys_set, keys_set_grow;
      destruct ta; auto using NoDup_keys_set, keys_set_mono, keys_set_grow.
  - rewrite store_other by done. destruct Hwf.
    split; simpl; intros; try done;
      auto using NoDup_keys_set, keys_set_grow.
Qed.
End shard_operations.

Section shard_get_set.
Import CacheNode.
Implicit Types (n : t) (key k : string) (now : Z).

Lemma get_absent n now key :
  dict_get (cache n) key = None -> get n now key = OK (n, None).
Proof. intros Hg. unfold get. by rewrite Hg. Qed.

Lemma get_lru n now key value :
  eviction_policy n = "LRU" -> dict_get (cache n) key = Some value ->
  get n now key =
    OK (with_access_times n (dict_set key now (access_times n)), Some value).
Proof. intros Hp Hg. unfold get. by rewrite Hg, Hp. Qed.

Lemma get_lfu n now key value :
  eviction_policy n = "LFU" -> dict_get (cache n) key = Some value ->
  get n now key =
    match dict_get (access_counts n) key with
    | Some c =>
        OK (with_access_counts n (dict_set key (c + 1) (access_counts n)),
            Some value)
    | None => Raise KeyError
    end.
Proof. intros Hp Hg. unfold get. by rewrite Hg, Hp. Qed.

(** The TTL branch: gone when the clock is strictly past the expiry. *)
Lemma get_ttl n now key value :
  eviction_policy n = "TTL" -> dict_get (cache n) key = Some value ->
  get n now key =
    match dict_get (ttl n) key with
    | Some expiry =>
        if now >? expiry then OK (invalidate n key, None) else OK (n, Some value)
    | None => OK (n, Some value)
    end.
Proof.
  intros Hp Hg. unfold get. rewrite Hg, Hp. simpl.
  destruct (dict_get (ttl n) key) as [e|]; [|done]. by destruct (now >? e).
Qed.

Lemma get_other n now key value :
  eviction_policy n <> "LRU" -> eviction_policy n <> "LFU" ->
  eviction_policy n <> "TTL" -> dict_get (cache n) key = Some value ->
  get n now key = OK (n, Some value).
Proof.
  intros H1 H2 H3 Hg. unfold get. by rewrite Hg, !eqb_policy_false.
Qed.

Lemma wf_touch_times n key now :
  wf n -> key ∈ keys (cache n) -> eviction_policy n = "LRU" ->
  wf (with_access_times n (dict_set key now (access_times n))).
Proof.
  intros [] Hin Hp. split; simpl; intros; try congruence;
    auto using NoDup_keys_set.
  - intros x [->|Hx]%elem_of_keys_set; auto.
  - apply keys_set_grow; auto.
Qed.

Lemma wf_touch_counts n key c :
  wf n -> key ∈ keys (cache n) -> eviction_policy n = "LFU" ->
  wf (with_access_counts n (dict_set key c (access_counts n))).
Proof.
  intros [] Hin Hp. split; simpl; intros; try congruence;
    auto using NoDup_keys_set.
  - intros x [->|Hx]%elem_of_keys_set; auto.
  - apply keys_set_grow; auto.
Qed.

(** [get] either leaves the entries alone or invalidates the key. *)
Lemma get_cache n now key n' r :
  get n now key = OK (n', r) ->
  cache n' = cache n \/ n' = invalidate n key.
Proof.
  unfold get. destruct (dict_get (cache n) key) as [value|]; [|by intros [= <- <-]; left].
  repeat (match goal with
          | |- context [if ?b then _ else _] => destruct b
          | |- context [match dict_get ?d ?k with _ => _ end] =>
              destruct (dict_get d k)
          end); try done; intros [= <- <-]; auto.
Qed.

Lemma wf_get n now key n' r : wf n -> get n now key = OK (n', r) -> wf n'.
Proof.
  intros Hwf. destruct (dict_get (cache n) key) as [value|] eqn:Hg.
  - assert (Hin : key ∈ keys (cache n)) by (apply dict_get_is_Some; eauto).
    destruct (policy_cases (eviction_policy n)) as [Hp|Hp|Hp|H1 H2 H3].
    + rewrite (get_lru _ _ _ value) by done. intros [= <- <-].
      by apply wf_touch_times.
    + rewrite (get_lfu _ _ _ value) by done.
      destruct (dict_get (access_counts n) key); [|done]. intros [= <- <-].
      by apply wf_touch_counts.
    + rewrite (get_ttl _ _ _ value) by done.
      destruct (dict_get (ttl n) key) as [e|]; [destruct (now >? e)|];
        intros [= <- <-]; auto using wf_invalidate.
    + rewrite (get_other _ _ _ value) by done. by intros [= <- <-].
  - rewrite get_absent by done. by intros [= <- <-].
Qed.

Lemma get_policy n now key n' r :
  get n now key = OK (n', r) ->
  eviction_policy n' = eviction_policy n /\ max_size n' = max_size n.
Proof.
  unfold get. destruct (dict_get (cache n) key) as [value|]; [|by intros [= <- <-]].
  repeat (match goal with
          | |- context [if ?b then _ else _] => destruct b
          | |- context [match dict_get ?d ?k with _ => _ end] =>
              destruct (dict_get d k)
          end); try done; intros [= <- <-];
    auto using invalidate_policy, invalidate_max_size.
Qed.

(** Under the invariant [get] always returns. *)
Lemma get_returns n now key : wf n -> exists n' r, get n now key = OK (n', r).
Proof.
  intros Hwf. destruct (dict_get (cache n) key) as [value|] eqn:Hg.
  - assert (Hin : key ∈ keys (cache n)) by (apply dict_get_is_Some; eauto).
    destruct (policy_cases (eviction_policy n)) as [Hp|Hp|Hp|H1 H2 H3].
    + rewrite (get_lru _ _ _ value) by done. eauto.
    + rewrite (get_lfu _ _ _ value) by done.
      apply (wf_lfu n Hwf Hp), dict_get_is_Some in Hin as [c ->]. eauto.
    + rewrite (get_ttl _ _ _ value) by done.
      destruct (dict_get (ttl n) key) as [e|]; [destruct (now >? e)|]; eauto.
    + rewrite (get_other _ _ _ value) by done. eauto.
  - rewrite get_absent by done. eauto.
Qed.

Lemma get_length n now key n' r :
  get n now key = OK (n', r) -> len n' <= len n.
Proof.
  intros [Hc| ->]%get_cache; unfold len.
  - by rewrite Hc.
  - rewrite invalidate_cache. pose proof (length_dict_del_le (cache n) key). lia.
Qed.

Lemma set_unfold n now key value ta :
  set n now key value ta =
    if len n >=? max_size n
    then n1 ← _evict n now; OK (store n1 now key value ta)
    else OK (store n now key value ta).
Proof. unfold set. by destruct (len n >=? max_size n). Qed.

Lemma wf_set n now key value ta n' :
  wf n -> set n now key value ta = OK n' -> wf n'.
Proof.
  intros Hwf. rewrite set_unfold. destruct (len n >=? max_size n).
  - destruct (_evict n now) as [n1|] eqn:He; [|done]. simpl.
    intros [= <-]. eapply wf_store, wf_evict; eauto.
  - intros [= <-]. by apply wf_store.
Qed.

Lemma set_policy n now key value ta n' :
  set n now key value ta = OK n' ->
  eviction_policy n' = eviction_policy n /\ max_size n' = max_size n.
Proof.
  rewrite set_unfold. destruct (len n >=? max_size n).
  - destruct (_evict n now) as [n1|] eqn:He; [|done]. simpl. intros [= <-].
    rewrite store_policy, store_max_size.
    eauto using evict_policy, evict_max_size.
  - intros [= <-]. by rewrite store_policy, store_max_size.
Qed.

Lemma wf_step n c n' : wf n -> step n c = OK n' -> wf n'.
Proof.
  intros Hwf. destruct c as [now key|now key value ta|key]; simpl.
  - destruct (get n now key) as [[n1 r]|] eqn:Hg; [|done].
    intros [= <-]. by eapply wf_get.
  - by apply wf_set.
  - intros [= <-]. by apply wf_invalidate.
Qed.

Lemma step_policy n c n' :
  step n c = OK n' ->
  eviction_policy n' = eviction_policy n /\ max_size n' = max_size n.
Proof.
  destruct c as [now key|now key value ta|key]; simpl.
  - destruct (get n now key) as [[n1 r]|] eqn:Hg; [|done].
    intros [= <-]. by eapply get_policy.
  - by apply set_policy.
  - intros [= <-]. by rewrite invalidate_policy, invalidate_max_size.
Qed.

Lemma reachable_wf n : reachable n -> wf n.
Proof.
  induction 1 as [id policy size|n c n' _ IH Hs]; [apply wf_init|].
  by eapply wf_step.
Qed.

Lemma run_reachable n cs n' : reachable n -> run n cs = OK n' -> reachable n'.
Proof.
  revert n. induction cs as [|c cs IH]; intros n Hr; simpl.
  - by intros [= <-].
  - destruct (step n c) as [n1|] eqn:Hs; [|done]. simpl.
    apply IH. by eapply reach_step.
Qed.
End shard_get_set.

(** ** The capacity bound of LRU and LFU shards *)

Section shard_capacity.
Import CacheNode.
Implicit Types (n : t) (key k : string) (now : Z).

Lemma len_store n now key value ta : len (store n now key value ta) <= len n + 1.
Proof.
  unfold len. rewrite store_cache, length_dict_set.
  destruct (dict_mem key (cache n)); lia.
Qed.

Lemma len_invalidate_present n key :
  wf n -> key ∈ keys (cache n) -> len (invalidate n key) = len n - 1.
Proof.
  intros Hwf Hin. unfold len. rewrite invalidate_cache.
  pose proof (length_dict_del (cache n) key (wf_cache n Hwf) Hin). lia.
Qed.

(** A counting shard that holds something evicts exactly one entry. *)
Lemma evict_counting n now :
  wf n -> counting n -> cache n <> [] ->
  exists k, _evict n now = OK (invalidate n k) /\ k ∈ keys (cache n).
Proof.
  intros Hwf [Hp|Hp] Hne.
  - destruct (evict_lru_victim n now) as (k & v & ? & ? & ? & ?); eauto.
  - destruct (evict_lfu_victim n now) as (k & v & ? & ? & ? & ?); eauto.
Qed.

Lemma set_counting n now key value ta :
  wf n -> counting n -> 0 < max_size n -> len n <= max_size n ->
  exists n', set n now key value ta = OK n' /\ len n' <= max_size n.
Proof.
  intros Hwf Hc Hpos Hle. rewrite set_unfold.
  destruct (len n >=? max_size n) eqn:Hfull.
  - apply Z.geb_le in Hfull.
    destruct (evict_counting n now) as (k & -> & Hk); [done..| |].
    { unfold len in *. destruct (cache n); simpl in *; [lia|done]. }
    eexists. split; [reflexivity|].
    pose proof (len_store (invalidate n k) now key value ta).
    rewrite len_invalidate_present in * by done. lia.
  - rewrite Z.geb_leb in Hfull. apply Z.leb_gt in Hfull.
    eexists. split; [reflexivity|].
    pose proof (len_store n now key value ta). lia.
Qed.

Lemma step_counting n c :
  wf n -> counting n -> 0 < max_size n -> len n <= max_size n ->
  exists n', step n c = OK n' /\ len n' <= max_size n.
Proof.
  intros Hwf Hc Hpos Hle. destruct c as [now key|now key value ta|key]; simpl.
  - destruct (get_returns n now key Hwf) as (n' & r & Hg). rewrite Hg.
    exists n'. split; [done|]. apply get_length in Hg. simpl. lia.
  - by apply set_counting.
  - eexists. split; [reflexivity|]. unfold len. rewrite invalidate_cache.
    pose proof (length_dict_del_le (cache n) key). unfold len in Hle. lia.
Qed.

Lemma run_counting n cs :
  wf n -> counting n -> 0 < max_size n -> len n <= max_size n ->
  exists n', run n cs = OK n' /\ wf n' /\ len n' <= max_size n.
Proof.
  revert n. induction cs as [|c cs IH]; intros n Hwf Hc Hpos Hle; simpl.
  - eauto.
  - destruct (step_counting n c) as (n1 & Hs & Hle1); [done..|].
    rewrite Hs. simpl.
    destruct (step_policy _ _ _ Hs) as [Hp Hm].
    destruct (IH n1) as (n' & Hr & Hwf' & Hle'); try (rewrite ?Hm; done).
    + by eapply wf_step.
    + unfold counting. by rewrite Hp.
    + exists n'. rewrite Hm in Hle'. done.
Qed.
End shard_capacity.

(** C1.  A shard built with policy LRU or LFU and a positive capacity [C]
    completes every sequence of [get], [set] and [invalidate] calls, and
    afterwards it holds at most [C] entries while the keys of the
    access-time, access-count and expiry maps all are keys of the entries. *)
Theorem capacity_and_metadata_invariant
    (id policy : string) (C : Z) (cs : list CacheNode.call) :
  policy = "LRU" \/ policy = "LFU" -> 0 < C ->
  exists n, CacheNode.run (CacheNode.__init__ id policy C) cs = OK n
    /\ Z.of_nat (length (CacheNode.cache n)) <= C
    /\ keys (CacheNode.access_times n) ⊆ keys (CacheNode.cache n)
    /\ keys (CacheNode.access_counts n) ⊆ keys (CacheNode.cache n)
    /\ keys (CacheNode.ttl n) ⊆ keys (CacheNode.cache n).
Proof.
  intros Hp Hpos.
  destruct (run_counting (CacheNode.__init__ id policy C) cs)
    as (n & Hr & Hwf & Hle); try done.
  - apply wf_init.
  - unfold CacheNode.len. simpl. lia.
  - exists n. destruct Hwf. split_and!; done.
Qed.

Lemma capacity_and_metadata_invariant_witness :
  exists n, CacheNode.run (CacheNode.__init__ "node2" "LRU" 2)
      [CacheNode.CallSet 1 "A" "1" None; CacheNode.CallSet 2 "B" "2" (Some 5);
       CacheNode.CallGet 3 "A"; CacheNode.CallSet 4 "C" "3" None;
       CacheNode.CallInvalidate "A"] = OK n
    /\ Z.of_nat (length (CacheNode.cache n)) <= 2
    /\ keys (CacheNode.access_times n) ⊆ keys (CacheNode.cache n)
    /\ keys (CacheNode.access_counts n) ⊆ keys (CacheNode.cache n)
    /\ keys (CacheNode.ttl n) ⊆ keys (CacheNode.cache n).
Proof.
  apply (capacity_and_metadata_invariant "node2" "LRU" 2); [by left | lia].
Defined.

(** ** The TTL sweep *)

Section ttl_sweep.
Import CacheNode.
Implicit Types (n : t) (key k : string) (now : Z).

Lemma elem_of_dict_get {V : Type} (d : pydict string V) k (v : V) :
  NoDup (keys d) -> (k, v) ∈ d <-> dict_get d k = Some v.
Proof.
  intros Hnd. split; [|apply dict_get_Some_elem].
  induction d as [|[k' v'] d IH]; simpl.
  - by intros ?%elem_of_nil.
  - apply NoDup_cons in Hnd as [Hk' Hnd].
    intros [[= -> ->]|Hin]%elem_of_cons.
    + by rewrite decide_True.
    + rewrite decide_False; [by apply IH|].
      intros ->. apply Hk'. by eapply elem_of_keys.
Qed.

Lemma elem_of_expired_keys n now k :
  NoDup (keys (ttl n)) -> k ∈ expired_keys n now <-> is_expired n now k = true.
Proof.
  intros Hnd. unfold expired_keys, is_expired, keys.
  rewrite list_elem_of_fmap. split.
  - intros ([k' e] & -> & [He Hin]%list_elem_of_filter). simpl in *.
    apply elem_of_dict_get in Hin; [|done]. rewrite Hin.
    by apply bool_decide_eq_true.
  - destruct (dict_get (ttl n) k) as [e|] eqn:Hg; [|done].
    intros He%bool_decide_eq_true. exists (k, e). split; [done|].
    apply list_elem_of_filter. split; [done|]. by apply dict_get_Some_elem.
Qed.

Lemma sweep_cache ks n k :
  dict_get (cache (fold_left invalidate ks n)) k =
    if decide (k ∈ ks) then None else dict_get (cache n) k.
Proof.
  revert n. induction ks as [|k0 ks IH]; intros n; cbn [fold_left].
  - rewrite decide_False; [done|]. by intros ?%elem_of_nil.
  - rewrite IH. destruct (decide (k ∈ ks)) as [Hin|Hin].
    + rewrite decide_True; [done|]. by right.
    + destruct (decide (k0 = k)) as [->|Hne].
      * rewrite decide_True by left. apply invalidate_absent.
      * rewrite decide_False.
        -- by apply invalidate_other.
        -- intros [->|?]%elem_of_cons; done.
Qed.

Lemma sweep_ttl ks n k :
  wf n ->
  dict_get (ttl (fold_left invalidate ks n)) k =
    if decide (k ∈ ks) then None else dict_get (ttl n) k.
Proof.
  revert n. induction ks as [|k0 ks IH]; intros n Hwf; cbn [fold_left].
  - rewrite decide_False; [done|]. by intros ?%elem_of_nil.
  - rewrite IH by (by apply wf_invalidate).
    rewrite (invalidate_spec n k0 Hwf). cbn [ttl].
    destruct (decide (k ∈ ks)) as [Hin|Hin].
    + rewrite decide_True; [done|]. by right.
    + destruct (decide (k0 = k)) as [->|Hne].
      * rewrite decide_True by left. apply dict_get_del_eq.
      * rewrite decide_False.
        -- by apply dict_get_del_ne.
        -- intros [->|?]%elem_of_cons; done.
Qed.

(** The sweep removes the expired entries, with their expiry, and no
    other. *)
Lemma evict_ttl_exact n now :
  wf n -> eviction_policy n = "TTL" ->
  exists n', _evict n now = OK n'
    /\ (forall k, dict_get (cache n') k =
                  if is_expired n now k then None else dict_get (cache n) k)
    /\ (forall k, dict_get (ttl n') k =
                  if is_expired n now k then None else dict_get (ttl n) k).
Proof.
  intros Hwf Hp. rewrite evict_ttl by done. eexists. split; [reflexivity|].
  pose proof (wf_ttl_nodup n Hwf) as Hnd.
  split; intros k; [rewrite sweep_cache | rewrite sweep_ttl by done];
    destruct (is_expired n now k) eqn:He.
  - rewrite decide_True; [done|]. by apply elem_of_expired_keys.
  - rewrite decide_False; [done|].
    rewrite elem_of_expired_keys by done. congruence.
  - rewrite decide_True; [done|]. by apply elem_of_expired_keys.
  - rewrite decide_False; [done|].
    rewrite elem_of_expired_keys by done. congruence.
Qed.

Lemma dict_set_new {V : Type} (d : pydict string V) k (v : V) :
  dict_get d k = None -> dict_set k v d = d ++ [(k, v)].
Proof.
  induction d as [|[k' v'] d IH]; simpl; [done|].
  case_decide; [done|]. intros Hg. by rewrite IH.
Qed.

(** Full, nothing expired, new key: the sweep is empty and [set] appends. *)
Lemma set_ttl_overflow n now key value ta :
  wf n -> eviction_policy n = "TTL" -> len n = max_size n ->
  (forall k, is_expired n now k = false) ->
  dict_get (cache n) key = None ->
  exists n', set n now key value ta = OK n'
    /\ cache n' = cache n ++ [(key, value)]
    /\ len n' = max_size n + 1.
Proof.
  intros Hwf Hp Hfull Hnone Hnew. rewrite set_unfold.
  assert (Hge : (len n >=? max_size n) = true) by (apply Z.geb_le; lia).
  rewrite Hge, evict_ttl by done.
  assert (Hks : expired_keys n now = []).
  { apply elem_of_nil_inv. intros k.
    rewrite elem_of_expired_keys by apply (wf_ttl_nodup n Hwf).
    by rewrite Hnone. }
  rewrite Hks. simpl. eexists. split; [reflexivity|].
  assert (Hc : cache (store n now key value ta) = cache n ++ [(key, value)])
    by (rewrite store_cache; by apply dict_set_new).
  split; [done|]. unfold len in *. rewrite Hc, length_app. simpl. lia.
Qed.
End ttl_sweep.

Lemma ttl_full_reachable : CacheNode.reachable ttl_full.
Proof.
  apply (run_reachable (CacheNode.__init__ "node1" "TTL" 2)
           [CacheNode.CallSet 0 "a" "x" (Some 60); CacheNode.CallSet 5 "b" "y" None]).
  - constructor.
  - reflexivity.
Qed.

(** C3.  On a TTL shard [_evict] removes exactly the entries whose expiry is
    at or before the clock reading, with their expiry, and keeps the others.
    So when such a shard is full, none of its entries has expired and the
    key is new, [set] removes nothing and leaves capacity + 1 entries; and
    such a state is reachable. *)
Theorem ttl_evict_expired_only_and_overflow :
  (forall n now, CacheNode.reachable n -> CacheNode.eviction_policy n = "TTL" ->
     exists n', CacheNode._evict n now = OK n'
       /\ (forall k, dict_get (CacheNode.cache n') k =
             if is_expired n now k then None else dict_get (CacheNode.cache n) k)
       /\ (forall k, dict_get (CacheNode.ttl n') k =
             if is_expired n now k then None else dict_get (CacheNode.ttl n) k))
  /\ (forall n now key value ta,
        CacheNode.reachable n -> CacheNode.eviction_policy n = "TTL" ->
        CacheNode.len n = CacheNode.max_size n ->
        (forall k, is_expired n now k = false) ->
        dict_get (CacheNode.cache n) key = None ->
        exists n', CacheNode.set n now key value ta = OK n'
          /\ CacheNode.cache n' = CacheNode.cache n ++ [(key, value)]
          /\ CacheNode.len n' = CacheNode.max_size n + 1)
  /\ (exists n now key,
        CacheNode.reachable n /\ CacheNode.eviction_policy n = "TTL"
        /\ 0 < CacheNode.max_size n
        /\ CacheNode.len n = CacheNode.max_size n
        /\ (forall k, is_expired n now k = false)
        /\ dict_get (CacheNode.cache n) key = None).
Proof.
  split_and!.
  - intros n now Hr Hp. apply evict_ttl_exact; [by apply reachable_wf | done].
  - intros n now key value ta Hr Hp. apply set_ttl_overflow; [by apply reachable_wf | done].
  - exists ttl_full, 10, "c". split_and!; try done.
    + apply ttl_full_reachable.
    + intros k. unfold is_expired. simpl. by case_decide.
Qed.

Lemma ttl_evict_expired_only_and_overflow_witness :
  exists n', CacheNode.set ttl_full 10 "c" "z" (Some 5) = OK n'
    /\ CacheNode.cache n' = [("a", "x"); ("b", "y"); ("c", "z")]
    /\ CacheNode.len n' = 2 + 1.
Proof.
  apply (proj1 (proj2 ttl_evict_expired_only_and_overflow) ttl_full 10 "c" "z" (Some 5)).
  - apply ttl_full_reachable.
  - reflexivity.
  - reflexivity.
  - intros k. unfold is_expired. simpl. by case_decide.
  - reflexivity.
Defined.

(** ** LRU eviction *)

Section lru.
Import CacheNode.
Implicit Types (n : t) (key k : string) (now : Z).

Lemma reachable_bounded n :
  reachable n -> counting n -> 0 < max_size n -> len n <= max_size n.
Proof.
  induction 1 as [id policy size|n c n' Hr IH Hs]; intros Hc Hpos.
  - unfold len. simpl in *. lia.
  - destruct (step_policy _ _ _ Hs) as [Hp Hm].
    destruct (step_counting n c) as (n1 & Hs1 & Hle).
    + by apply reachable_wf.
    + unfold counting in *. by rewrite <- Hp.
    + lia.
    + apply IH; [unfold counting in *; by rewrite <- Hp | lia].
    + rewrite Hs in Hs1. injection Hs1 as <-. lia.
Qed.

(** A full LRU shard makes room by dropping a least recently used key,
    then appends the new one. *)
Lemma set_lru_full n now key value ta :
  wf n -> eviction_policy n = "LRU" ->
  0 < max_size n -> max_size n <= len n ->
  dict_get (cache n) key = None ->
  exists victim tv n',
    dict_get (access_times n) victim = Some tv
    /\ (forall k t, dict_get (access_times n) k = Some t -> tv <= t)
    /\ is_Some (dict_get (cache n) victim)
    /\ set n now key value ta = OK n'
    /\ cache n' = dict_del victim (cache n) ++ [(key, value)]
    /\ access_times n' = dict_del victim (access_times n) ++ [(key, now)].
Proof.
  intros Hwf Hp Hpos Hfull Hnew.
  destruct (evict_lru_victim n now) as (victim & tv & He & Hin & Hmin & Hc);
    [done..| |].
  { unfold len in *. destruct (cache n); simpl in *; [lia|done]. }
  exists victim, tv. eexists. split_and!.
  - apply elem_of_dict_get; [apply (wf_times_nodup n Hwf) | done].
  - intros k t Hk%dict_get_Some_elem.
    rewrite Forall_forall in Hmin. by apply (Hmin (k, t)).
  - by apply dict_get_is_Some.
  - rewrite set_unfold, (proj2 (Z.geb_le _ _) Hfull), He. reflexivity.
  - rewrite store_cache, invalidate_cache. apply dict_set_new.
    destruct (decide (victim = key)) as [->|Hne];
      [apply dict_get_del_eq | by rewrite dict_get_del_ne].
  - rewrite store_lru by (by rewrite invalidate_policy).
    rewrite (invalidate_spec n victim Hwf). simpl. apply dict_set_new.
    apply dict_get_None. rewrite elem_of_keys_del.
    intros [_ Hk%(wf_times n Hwf)]. apply dict_get_None in Hnew. done.
Qed.

(** [get] stamps the key with the clock reading and touches nothing else. *)
Lemma get_lru_refresh n now key value :
  eviction_policy n = "LRU" -> dict_get (cache n) key = Some value ->
  exists n', get n now key = OK (n', Some value)
    /\ cache n' = cache n
    /\ dict_get (access_times n') key = Some now
    /\ (forall k, k <> key ->
          dict_get (access_times n') k = dict_get (access_times n) k).
Proof.
  intros Hp Hg. rewrite (get_lru _ _ _ value) by done.
  eexists. split_and!; [done | done | apply dict_get_set_eq |].
  intros k Hne. simpl. by apply dict_get_set_ne.
Qed.
End lru.

Lemma lru_scenario_run (id : string) (t1 t2 t3 t4 : Z) :
  t2 < t3 ->
  CacheNode.run (CacheNode.__init__ id "LRU" 2) (lru_scenario t1 t2 t3 t4) =
    OK (CacheNode.Build id 2 [("A", "1"); ("C", "3")] "LRU"
          [("A", t3); ("C", t4)] [] []).
Proof.
  intros Hlt. cbv -[Z.ltb].
  rewrite (proj2 (Z.ltb_lt t2 t3) Hlt). reflexivity.
Qed.

(** C6, as the code has it.  A full LRU shard that is given a new key
    first removes a stored key whose last-access time is smallest, then
    appends the new key; [get] sets the last-access time of the key it
    returns to the clock reading.  On a capacity-2 shard the sequence
    set(A,1), set(B,2), get(A), set(C,3) evicts B, and the following
    get(A), get(B), get(C) return 1, absent, 3, provided get(A) reads the
    clock strictly after set(B) did; the other readings are arbitrary. *)
Theorem lru_evicts_least_recently_used :
  (forall n now key value ta,
     CacheNode.reachable n -> CacheNode.eviction_policy n = "LRU" ->
     0 < CacheNode.max_size n -> CacheNode.len n = CacheNode.max_size n ->
     dict_get (CacheNode.cache n) key = None ->
     exists victim tv n',
       dict_get (CacheNode.access_times n) victim = Some tv
       /\ (forall k t, dict_get (CacheNode.access_times n) k = Some t -> tv <= t)
       /\ is_Some (dict_get (CacheNode.cache n) victim)
       /\ CacheNode.set n now key value ta = OK n'
       /\ CacheNode.cache n' =
            dict_del victim (CacheNode.cache n) ++ [(key, value)]
       /\ CacheNode.access_times n' =
            dict_del victim (CacheNode.access_times n) ++ [(key, now)])
  /\ (forall n now key value,
        CacheNode.eviction_policy n = "LRU" ->
        dict_get (CacheNode.cache n) key = Some value ->
        exists n', CacheNode.get n now key = OK (n', Some value)
          /\ CacheNode.cache n' = CacheNode.cache n
          /\ dict_get (CacheNode.access_times n') key = Some now
          /\ (forall k, k <> key ->
                dict_get (CacheNode.access_times n') k =
                dict_get (CacheNode.access_times n) k))
  /\ (forall id t1 t2 t3 t4 t5 t6 t7,
        t2 < t3 ->
        exists n4 n5 n6 n7,
          CacheNode.run (CacheNode.__init__ id "LRU" 2)
                        (lru_scenario t1 t2 t3 t4) = OK n4
          /\ dict_get (CacheNode.cache n4) "B" = None
          /\ CacheNode.get n4 t5 "A" = OK (n5, Some "1")
          /\ CacheNode.get n5 t6 "B" = OK (n6, None)
          /\ CacheNode.get n6 t7 "C" = OK (n7, Some "3")).
Proof.
  split_and!.
  - intros n now key value ta Hr Hp Hpos Hfull Hnew.
    apply set_lru_full; [by apply reachable_wf | done | done | lia | done].
  - intros n now key value. apply get_lru_refresh.
  - intros id t1 t2 t3 t4 t5 t6 t7 Hlt.
    rewrite lru_scenario_run by done. by do 4 eexists.
Qed.

Lemma lru_evicts_least_recently_used_witness :
  exists n4 n5 n6 n7,
    CacheNode.run (CacheNode.__init__ "node2" "LRU" 2) (lru_scenario 1 2 3 4)
      = OK n4
    /\ dict_get (CacheNode.cache n4) "B" = None
    /\ CacheNode.get n4 5 "A" = OK (n5, Some "1")
    /\ CacheNode.get n5 6 "B" = OK (n6, None)
    /\ CacheNode.get n6 7 "C" = OK (n7, Some "3").
Proof.
  apply (proj2 (proj2 lru_evicts_least_recently_used) "node2" 1 2 3 4 5 6 7).
  lia.
Defined.

(** C6 as stated fails when the clock does not advance between set(B) and
    get(A): both keys then carry the same last-access time, [min] keeps
    the first key in stored order, and A is evicted instead of B. *)
Lemma lru_scenario_clock_tie_evicts_A :
  exists n4,
    CacheNode.run (CacheNode.__init__ "node2" "LRU" 2) (lru_scenario 1 2 2 3)
      = OK n4
    /\ dict_get (CacheNode.cache n4) "A" = None
    /\ CacheNode.get n4 4 "A" = OK (n4, None)
    /\ exists n5, CacheNode.get n4 5 "B" = OK (n5, Some "2").
Proof.
  eexists. split_and!; [vm_compute; reflexivity..|].
  eexists. vm_compute. reflexivity.
Qed.

(** ** The [ttl] argument on shards that count accesses *)

Section ttl_argument.
Import CacheNode.
Implicit Types (n : t) (key k : string) (now : Z).

Lemma store_counting_ignores_ttl n now key value ta :
  counting n -> store n now key value ta = store n now key value None.
Proof.
  intros [Hp|Hp]; [by rewrite !store_lru | by rewrite !store_lfu].
Qed.

Lemma set_counting_ignores_ttl n now key value ta :
  counting n -> set n now key value ta = set n now key value None.
Proof.
  intros Hc. rewrite !set_unfold. destruct (len n >=? max_size n).
  - destruct (_evict n now) as [n1|] eqn:He; [|done]. simpl. f_equal.
    apply store_counting_ignores_ttl.
    unfold counting in *. by rewrite (evict_policy _ _ _ He).
  - f_equal. by apply store_counting_ignores_ttl.
Qed.

Lemma counting_not_ttl n : counting n -> eviction_policy n <> "TTL".
Proof. intros [Hp|Hp]; by rewrite Hp. Qed.

(** Right after [set], a counting shard returns the value at any clock
    reading. *)
Lemma get_after_set_counting n now now' key value ta n' :
  wf n -> counting n -> set n now key value ta = OK n' ->
  exists n'', get n' now' key = OK (n'', Some value).
Proof.
  intros Hwf Hc Hs.
  assert (Hwf' : wf n') by (by eapply wf_set).
  destruct (set_policy _ _ _ _ _ _ Hs) as [Hp _].
  assert (Hg : dict_get (cache n') key = Some value).
  { revert Hs. rewrite set_unfold. destruct (len n >=? max_size n).
    - destruct (_evict n now) as [n1|]; [|done]. simpl. intros [= <-].
      rewrite store_cache. apply dict_get_set_eq.
    - intros [= <-]. rewrite store_cache. apply dict_get_set_eq. }
  destruct Hc as [Hc|Hc]; rewrite <- Hp in Hc.
  - rewrite (get_lru _ _ _ value) by done. eauto.
  - rewrite (get_lfu _ _ _ value) by done.
    assert (Hin : key ∈ keys (access_counts n')).
    { apply (wf_lfu n' Hwf' Hc), dict_get_is_Some. eauto. }
    apply dict_get_is_Some in Hin as [c ->]. eauto.
Qed.
End ttl_argument.

(** C10.  On a shard whose policy is LRU or LFU, [set] with a ttl argument
    is [set] without one: the expiry map is empty before and after, and a
    [get] of the key at any clock reading returns the stored value; with a
    positive capacity the [set] always returns. *)
Theorem ttl_argument_ignored_by_lru_and_lfu
    (n : CacheNode.t) (now d now' : Z) (key value : string) :
  CacheNode.reachable n ->
  CacheNode.eviction_policy n = "LRU" \/ CacheNode.eviction_policy n = "LFU" ->
  CacheNode.set n now key value (Some d) = CacheNode.set n now key value None
  /\ CacheNode.ttl n = []
  /\ (forall n', CacheNode.set n now key value (Some d) = OK n' ->
        CacheNode.ttl n' = CacheNode.ttl n
        /\ dict_get (CacheNode.ttl n') key = None
        /\ exists n'', CacheNode.get n' now' key = OK (n'', Some value))
  /\ (0 < CacheNode.max_size n ->
      exists n', CacheNode.set n now key value (Some d) = OK n').
Proof.
  intros Hr Hc. pose proof (reachable_wf n Hr) as Hwf.
  pose proof (wf_not_ttl n Hwf (counting_not_ttl n Hc)) as Ht.
  split_and!.
  - by apply set_counting_ignores_ttl.
  - done.
  - intros n' Hs. pose proof (wf_set _ _ _ _ _ _ Hwf Hs) as Hwf'.
    destruct (set_policy _ _ _ _ _ _ Hs) as [Hp _].
    assert (Ht' : CacheNode.ttl n' = []).
    { apply (wf_not_ttl n' Hwf'). rewrite Hp. by apply counting_not_ttl. }
    split_and!.
    + by rewrite Ht, Ht'.
    + by rewrite Ht'.
    + apply (get_after_set_counting n now now' key value (Some d) n'); done.
  - intros Hpos.
    destruct (set_counting n now key value (Some d)) as (n' & Hs & _); eauto.
    by apply reachable_bounded.
Qed.

Lemma ttl_argument_ignored_by_lru_and_lfu_witness :
  CacheNode.set (CacheNode.__init__ "node3" "LFU" 10) 0 "user_1" "profile_data" (Some 5)
    = CacheNode.set (CacheNode.__init__ "node3" "LFU" 10) 0 "user_1" "profile_data" None
  /\ CacheNode.ttl (CacheNode.__init__ "node3" "LFU" 10) = []
  /\ (forall n', CacheNode.set (CacheNode.__init__ "node3" "LFU" 10) 0
                   "user_1" "profile_data" (Some 5) = OK n' ->
        CacheNode.ttl n' = CacheNode.ttl (CacheNode.__init__ "node3" "LFU" 10)
        /\ dict_get (CacheNode.ttl n') "user_1" = None
        /\ exists n'', CacheNode.get n' 1000 "user_1" = OK (n'', Some "profile_data"))
  /\ (0 < CacheNode.max_size (CacheNode.__init__ "node3" "LFU" 10) ->
      exists n', CacheNode.set (CacheNode.__init__ "node3" "LFU" 10) 0
                   "user_1" "profile_data" (Some 5) = OK n').
Proof.
  apply (ttl_argument_ignored_by_lru_and_lfu
           (CacheNode.__init__ "node3" "LFU" 10) 0 5 1000 "user_1" "profile_data").
  - constructor.
  - by right.
Defined.

(** ** Overwriting a stored key *)

Section overwrite.
Import CacheNode.
Implicit Types (n : t) (key k : string) (now : Z).

Lemma sweep_keys ks n :
  keys (cache (fold_left invalidate ks n)) ⊆ keys (cache n).
Proof.
  intros k. rewrite <- !dict_get_is_Some, sweep_cache.
  case_decide; [by intros [? ?] | done].
Qed.

(** A sweep that drops [k] shortens the entries. *)
Lemma sweep_length_lost ks n k :
  wf n -> k ∈ keys (cache n) -> k ∉ keys (cache (fold_left invalidate ks n)) ->
  len (fold_left invalidate ks n) + 1 <= len n.
Proof.
  intros Hwf Hin Hout.
  pose proof (wf_cache _ (wf_sweep ks n Hwf)) as Hnd.
  assert (Hsub : k :: keys (cache (fold_left invalidate ks n)) ⊆+ keys (cache n)).
  { apply NoDup_submseteq.
    - by apply NoDup_cons.
    - intros x [->|Hx]%elem_of_cons; [done|]. by apply (sweep_keys ks n). }
  apply submseteq_length in Hsub. simpl in Hsub.
  unfold len, keys in *. rewrite !length_map in Hsub. lia.
Qed.

(** Under the invariant [_evict] can only raise on an empty shard. *)
Lemma evict_returns n now :
  wf n -> cache n <> [] -> exists n1, _evict n now = OK n1.
Proof.
  intros Hwf Hne.
  destruct (policy_cases (eviction_policy n)) as [Hp|Hp|Hp|H1 H2 H3].
  - destruct (evict_counting n now) as (k & -> & _); eauto. by left.
  - destruct (evict_counting n now) as (k & -> & _); eauto. by right.
  - rewrite evict_ttl by done. eauto.
  - rewrite evict_other by done. eauto.
Qed.

Lemma set_stored_key n now k v0 v' ta :
  wf n -> dict_get (cache n) k = Some v0 ->
  exists n', set n now k v' ta = OK n'
    /\ dict_get (cache n') k = Some v'
    /\ len n' <= len n
    /\ (len n < max_size n ->
        n' = store n now k v' ta /\ keys (cache n') = keys (cache n))
    /\ (max_size n <= len n ->
        exists n1, _evict n now = OK n1 /\ n' = store n1 now k v' ta).
Proof.
  intros Hwf Hg.
  assert (Hin : k ∈ keys (cache n)) by (apply dict_get_is_Some; eauto).
  rewrite set_unfold. destruct (len n >=? max_size n) eqn:Hfull.
  - apply Z.geb_le in Hfull.
    destruct (evict_returns n now Hwf) as [n1 He].
    { intros Hnil. rewrite Hnil in Hg. done. }
    rewrite He. simpl. eexists. split_and!; [done| | |lia|eauto].
    + rewrite store_cache. apply dict_get_set_eq.
    + destruct (evict_is_sweep _ _ _ He) as [ks ->].
      unfold len at 1. rewrite store_cache, length_dict_set.
      destruct (dict_mem k _) eqn:Hm.
      * pose proof (sweep_length ks n). unfold len. lia.
      * apply dict_mem_false in Hm.
        pose proof (sweep_length_lost ks n k Hwf Hin Hm). unfold len in *. lia.
  - rewrite Z.geb_leb in Hfull. apply Z.leb_gt in Hfull.
    eexists. split_and!; [done| | | |lia].
    + rewrite store_cache. apply dict_get_set_eq.
    + unfold len. rewrite store_cache, length_dict_set.
      by rewrite (proj2 (dict_mem_true _ _) Hin).
    + intros _. split; [done|]. rewrite store_cache. by apply keys_set_old.
Qed.
End overwrite.

Lemma lru_full_reachable : CacheNode.reachable lru_full.
Proof.
  apply (run_reachable (CacheNode.__init__ "node2" "LRU" 2)
           [CacheNode.CallSet 1 "A" "1" None; CacheNode.CallSet 2 "B" "2" None]).
  - constructor.
  - reflexivity.
Qed.

(** C4 as stated fails on a full shard: overwriting the stored key B first
    evicts the least recently used key A, so the entries shrink from
    {A, B} to {B}. *)
Lemma overwrite_at_capacity_evicts :
  CacheNode.reachable lru_full
  /\ dict_get (CacheNode.cache lru_full) "B" = Some "2"
  /\ CacheNode.len lru_full = CacheNode.max_size lru_full
  /\ CacheNode.set lru_full 3 "B" "9" None =
       OK (CacheNode.Build "node2" 2 [("B", "9")] "LRU" [("B", 3)] [] [])
  /\ keys (CacheNode.cache lru_full) = ["A"; "B"]
  /\ CacheNode._evict lru_full 3 = OK (CacheNode.invalidate lru_full "A").
Proof. split_and!; try reflexivity. apply lru_full_reachable. Qed.

(** C4, as the code has it.  [set] of a key the shard holds returns and
    stores the new value under the key, and the number of entries does not
    grow.  Below capacity nothing is evicted and the stored keys are the
    same.  At or above capacity [_evict] runs first, although the key is
    present, and [set] writes into what it leaves. *)
Theorem set_of_stored_key
    (n : CacheNode.t) (now : Z) (k v0 v' : string) (ta : option Z) :
  CacheNode.reachable n ->
  dict_get (CacheNode.cache n) k = Some v0 ->
  exists n', CacheNode.set n now k v' ta = OK n'
    /\ dict_get (CacheNode.cache n') k = Some v'
    /\ CacheNode.len n' <= CacheNode.len n
    /\ (CacheNode.len n < CacheNode.max_size n ->
        n' = CacheNode.store n now k v' ta
        /\ keys (CacheNode.cache n') = keys (CacheNode.cache n))
    /\ (CacheNode.max_size n <= CacheNode.len n ->
        exists n1, CacheNode._evict n now = OK n1
          /\ n' = CacheNode.store n1 now k v' ta).
Proof.
  intros Hr Hg. apply (set_stored_key n now k v0); [by apply reachable_wf | done].
Qed.

Lemma set_of_stored_key_witness :
  exists n', CacheNode.set lru_full 3 "B" "9" (Some 4) = OK n'
    /\ dict_get (CacheNode.cache n') "B" = Some "9"
    /\ CacheNode.len n' <= CacheNode.len lru_full
    /\ (CacheNode.len lru_full < CacheNode.max_size lru_full ->
        n' = CacheNode.store lru_full 3 "B" "9" (Some 4)
        /\ keys (CacheNode.cache n') = keys (CacheNode.cache lru_full))
    /\ (CacheNode.max_size lru_full <= CacheNode.len lru_full ->
        exists n1, CacheNode._evict lru_full 3 = OK n1
          /\ n' = CacheNode.store n1 3 "B" "9" (Some 4)).
Proof.
  apply (set_of_stored_key lru_full 3 "B" "2" "9" (Some 4)).
  - apply lru_full_reachable.
  - reflexivity.
Defined.

(** ** Lazy expiry in [get] *)

Section lazy_expiry.
Import CacheNode.
Implicit Types (n : t) (key k : string) (now : Z).

(** What [get] does with an entry that carries an expiry: strictly after
    the expiry the entry and its metadata go and stay gone; up to and
    including the expiry the value is returned and nothing changes. *)
Lemma get_ttl_expiry n now key value expiry :
  eviction_policy n = "TTL" ->
  dict_get (cache n) key = Some value ->
  dict_get (ttl n) key = Some expiry ->
  (expiry < now ->
     get n now key = OK (invalidate n key, None)
     /\ dict_get (cache (invalidate n key)) key = None
     /\ dict_get (ttl (invalidate n key)) key = None
     /\ forall now', get (invalidate n key) now' key = OK (invalidate n key, None))
  /\ (now <= expiry -> get n now key = OK (n, Some value)).
Proof.
  intros Hp Hg Ht. rewrite (get_ttl _ _ _ value), Ht by done. split.
  - intros Hlt. rewrite (proj2 (Z.gtb_gt _ _)) by lia. split_and!.
    + done.
    + apply invalidate_absent.
    + unfold invalidate, dict_mem. rewrite Hg, Ht. simpl. apply dict_get_del_eq.
    + intros now'. apply get_absent, invalidate_absent.
  - intros Hle. destruct (now >? expiry) eqn:Hgt; [|done].
    apply Z.gtb_gt in Hgt. lia.
Qed.
End lazy_expiry.

(** C5 at the expiry instant.  The entry expires at 105.  Read at clock
    105, [get] returns the value and removes nothing (its test is
    [now > expiry]), while the sweep of [_evict] at the same reading
    counts the entry as expired ([expiry <= now]) and removes it. *)
Theorem get_at_expiry_instant_returns_value :
  CacheNode.set (CacheNode.__init__ "node1" "TTL" 10) 100
                "driver_1" "available" (Some 5) = OK ttl_entry
  /\ dict_get (CacheNode.ttl ttl_entry) "driver_1" = Some 105
  /\ CacheNode.get ttl_entry 105 "driver_1" = OK (ttl_entry, Some "available")
  /\ CacheNode.expired_keys ttl_entry 105 = ["driver_1"]
  /\ (exists n', CacheNode._evict ttl_entry 105 = OK n' /\ CacheNode.cache n' = [])
  /\ CacheNode.get ttl_entry 106 "driver_1" =
       OK (CacheNode.invalidate ttl_entry "driver_1", None).
Proof. split_and!; try reflexivity. eexists. split; reflexivity. Qed.

(** ** The digest against [hashlib] *)

(** The values [hashlib.sha256(...)] prints for the FIPS test vector, the
    empty string, a two-block message and a virtual-point name. *)
Lemma sha256_test_vectors :
  Sha256.sha256_int "abc" =
    0xba7816bf8f01cfea414140de5dae2223b00361a396177a9cb410ff61f20015ad
  /\ Sha256.sha256_int "" =
    0xe3b0c44298fc1c149afbf4c8996fb92427ae41e4649b934ca495991b7852b855
  /\ Sha256.sha256_int
       "aaaaaaaaaaaaaaaaaaaaaaaaaaaaaaaaaaaaaaaaaaaaaaaaaaaaaaaaaaaaaaaaaaaaaa" =
    0x6bd5e5034855a11241f0dee8fc72850ffd9955b28347a86428b5fa19119f6ad0
  /\ DistributedCache._hash (DistributedCache.vnode_name "node1" 0) =
    0xaaf55759c16066c5f4c4e85c13047f413039f7d49a131b6d8a21064909eaaa83.
Proof. vm_compute. done. Qed.

(** ** The digest is a 256-bit number *)

Section digest_width.
Import Sha256.

Lemma add32_word x y : word (add32 x y).
Proof. unfold word, add32, w32. apply Z.mod_pos_bound. lia. Qed.

(** The constants against the values the standard prints. *)
Lemma sha256_constants :
  nth 0 K 0 = 0x428a2f98 /\ nth 63 K 0 = 0xc67178f2 /\ length K = 64%nat
  /\ ha H0 = 0x6a09e667 /\ hh H0 = 0x5be0cd19.
Proof. vm_compute. done. Qed.

Lemma w32_word x : word (w32 x).
Proof. unfold word, w32. apply Z.mod_pos_bound. lia. Qed.

Lemma H0_words : words H0.
Proof.
  unfold words, H0, frac32. cbn [ha hb hc hd he hf hg hh].
  repeat split; apply w32_word.
Qed.

Lemma compress_words s blk : words (compress s blk).
Proof.
  unfold words, compress. cbn [ha hb hc hd he hf hg hh].
  repeat split; apply add32_word.
Qed.

Lemma digest_words s : words (digest s).
Proof.
  unfold digest. generalize (blocks (pad (bytes_of_string s))). intros bs.
  induction bs as [|b bs IH] using rev_ind.
  - apply H0_words.
  - rewrite fold_left_app. cbn [fold_left]. apply compress_words.
Qed.

Lemma shift_word acc w bound :
  0 <= acc < bound -> word w -> 0 <= acc * 2 ^ 32 + w < bound * 2 ^ 32.
Proof. unfold word. change (2 ^ 32) with 4294967296. lia. Qed.

Lemma to_int_range s : words s -> 0 <= to_int s < 2 ^ 256.
Proof.
  unfold words, to_int. cbn [fold_left].
  intros (Ha & Hb & Hc & Hd & He & Hf & Hg & Hh).
  change (2 ^ 256) with
    (1 * 2 ^ 32 * 2 ^ 32 * 2 ^ 32 * 2 ^ 32 * 2 ^ 32 * 2 ^ 32 * 2 ^ 32 * 2 ^ 32).
  repeat (apply shift_word; [|assumption]). lia.
Qed.

Lemma sha256_int_range s : 0 <= sha256_int s < 2 ^ 256.
Proof. apply to_int_range, digest_words. Qed.
End digest_width.

(** ** The ring *)

Section ring.
Import DistributedCache.
Implicit Types (h : heap) (m : gmap Z ref) (dc : t) (key : string).

Lemma add_node_put h m node :
  add_node h m node = fold_left put (node_points h node) m.
Proof.
  unfold add_node, node_points. generalize (seq 0 3). intros l. revert m.
  induction l as [|i l IH]; intros m; [done|]. cbn [fold_left fmap list_fmap].
  by rewrite IH.
Qed.

Lemma fold_add_node h nodes m :
  fold_left (add_node h) nodes m = fold_left put (vpoints h nodes) m.
Proof.
  revert m. induction nodes as [|node nodes IH]; intros m; [done|].
  unfold vpoints. cbn [fold_left mbind list_bind]. rewrite fold_left_app.
  rewrite IH. by rewrite add_node_put.
Qed.

Lemma fold_put_list_to_map (l : list (Z * ref)) :
  fold_left put l ∅ = list_to_map (reverse l).
Proof.
  induction l as [|p l IH] using rev_ind; [done|].
  rewrite fold_left_app, reverse_snoc. simpl. by rewrite IH.
Qed.

(** The ring is the map of the virtual points in which, for one hash
    value, the point visited last stands. *)
Lemma create_node_map_points h nodes :
  _create_node_map h nodes = list_to_map (reverse (vpoints h nodes)).
Proof.
  unfold _create_node_map. by rewrite fold_add_node, fold_put_list_to_map.
Qed.

Lemma length_vpoints h nodes : length (vpoints h nodes) = (3 * length nodes)%nat.
Proof.
  induction nodes as [|node nodes IH]; [done|].
  unfold vpoints in *. cbn [mbind list_bind]. rewrite length_app.
  change (list_bind _ _ (node_points h) nodes) with (nodes ≫= node_points h).
  rewrite IH. simpl. lia.
Qed.

(** One entry per distinct key: duplicates make the map smaller than
    the list. *)
Lemma size_list_to_map_le (l : list (Z * ref)) :
  (size (list_to_map l : gmap Z ref) <= length l)%nat
  /\ (NoDup l.*1 -> size (list_to_map l : gmap Z ref) = length l)
  /\ (~ NoDup l.*1 -> (size (list_to_map l : gmap Z ref) < length l)%nat).
Proof.
  induction l as [|[k v] l (IHle & IHeq & IHlt)]; simpl.
  - rewrite map_size_empty. split_and!; [done | done |].
    intros Hn. destruct Hn. constructor.
  - rewrite map_size_insert.
    destruct (list_to_map l !! k) as [v'|] eqn:Hk; simpl.
    + split_and!; [lia | | lia].
      intros [Hin _]%NoDup_cons. destruct Hin.
      destruct (decide (k ∈ l.*1)) as [?|Hn]; [done|].
      apply not_elem_of_list_to_map in Hn. congruence.
    + apply not_elem_of_list_to_map in Hk. split_and!; [lia | |].
      * intros [_ Hnd]%NoDup_cons. by rewrite IHeq.
      * intros Hnd.
        assert (Hn : ~ NoDup l.*1) by (intros ?; apply Hnd; by apply NoDup_cons).
        apply IHlt in Hn. lia.
Qed.

Lemma fold_put_other (l : list (Z * ref)) m hk :
  hk ∉ l.*1 -> fold_left put l m !! hk = m !! hk.
Proof.
  revert m. induction l as [|[k v] l IH]; intros m Hnot; simpl; [done|].
  apply not_elem_of_cons in Hnot as [Hne Hnot]. rewrite IH by done.
  unfold put. simpl in *. by rewrite lookup_insert_ne.
Qed.

(** Of the points that share a hash value, the one visited last owns it. *)
Lemma last_point_wins (l1 l2 : list (Z * ref)) hk node :
  hk ∉ l2.*1 ->
  fold_left put (l1 ++ (hk, node) :: l2) ∅ !! hk = Some node.
Proof.
  intros Hlast. rewrite fold_left_app. cbn [fold_left].
  rewrite fold_put_other by done. unfold put. simpl. apply lookup_insert_eq.
Qed.

Lemma node_map_keys h nodes hk :
  is_Some (_create_node_map h nodes !! hk) <-> hk ∈ (vpoints h nodes).*1.
Proof.
  rewrite create_node_map_points.
  rewrite <- not_eq_None_Some, <- not_elem_of_list_to_map.
  rewrite fmap_reverse, elem_of_reverse.
  split; [apply dec_stable | by intros ? ?].
Qed.

Lemma create_node_map_size h nodes :
  let pts := vpoints h nodes in
  (size (_create_node_map h nodes) <= 3 * length nodes)%nat
  /\ (NoDup pts.*1 -> size (_create_node_map h nodes) = (3 * length nodes)%nat)
  /\ (~ NoDup pts.*1 -> (size (_create_node_map h nodes) < 3 * length nodes)%nat).
Proof.
  intros pts. rewrite create_node_map_points.
  destruct (size_list_to_map_le (reverse pts)) as (Hle & Heq & Hlt).
  rewrite length_reverse in *. unfold pts in *. rewrite length_vpoints in *.
  rewrite fmap_reverse in *.
  assert (Hrev : NoDup (reverse (vpoints h nodes).*1) <-> NoDup (vpoints h nodes).*1)
    by (by rewrite reverse_Permutation).
  split_and!; [done | |].
  - intros Hnd. apply Heq. by apply Hrev.
  - intros Hnd. apply Hlt. intros Hr. apply Hnd. by apply Hrev.
Qed.

(** A ring built from at least one shard is not empty. *)
Lemma create_node_map_nonempty h node nodes :
  _create_node_map h (node :: nodes) <> ∅.
Proof.
  intros Hempty.
  assert (Hin : _hash (vnode_name (CacheNode.node_id (h node)) 0)
                ∈ (vpoints h (node :: nodes)).*1).
  { unfold vpoints. cbn [mbind list_bind]. rewrite fmap_app.
    apply elem_of_app. left. unfold node_points. cbn [seq fmap list_fmap].
    left. }
  apply node_map_keys in Hin as [r Hr]. rewrite Hempty in Hr.
  by rewrite lookup_empty in Hr.
Qed.
End ring.

(** ** Locating a key on the ring *)

Section locate.
Import DistributedCache.
Implicit Types (h : heap) (dc : t) (key : string).

Lemma sorted_keys_sorted dc : StronglySorted Z.le (sorted_keys dc).
Proof. apply StronglySorted_merge_sort; apply _. Qed.

Lemma elem_of_sorted_keys dc x :
  x ∈ sorted_keys dc <-> is_Some (node_map dc !! x).
Proof.
  unfold sorted_keys. rewrite merge_sort_Permutation, list_elem_of_fmap. split.
  - intros ([k node] & -> & Hin%elem_of_map_to_list). eauto.
  - intros [node Hn]. exists (x, node). split; [done|].
    by apply elem_of_map_to_list.
Qed.

Lemma sorted_keys_empty dc : node_map dc = ∅ -> sorted_keys dc = [].
Proof.
  intros Hm. apply elem_of_nil_inv. intros x.
  rewrite elem_of_sorted_keys, Hm, lookup_empty. by intros [? ?].
Qed.

(** The scan of a sorted list stops at the least element that is at or
    above the bound. *)
Lemma find_successor (l : list Z) (hk : Z) :
  StronglySorted Z.le l ->
  match List.find (fun x => bool_decide (hk <= x)) l with
  | Some x => x ∈ l /\ hk <= x /\ forall y, y ∈ l -> hk <= y -> x <= y
  | None => forall y, y ∈ l -> y < hk
  end.
Proof.
  induction 1 as [|a l Hs IH Ha]; simpl.
  - by intros y ?%elem_of_nil.
  - case_bool_decide as Hle.
    + split_and!; [left | done |].
      intros y [->|Hy]%elem_of_cons _; [lia|].
      rewrite Forall_forall in Ha. by apply Ha.
    + destruct (List.find _ l) as [x|].
      * destruct IH as (Hin & Hx & Hmin). split_and!; [by right | done |].
        intros y [->|Hy]%elem_of_cons Hy'; [lia | by apply Hmin].
      * intros y [->|Hy]%elem_of_cons; [lia | by apply IH].
Qed.

Lemma sorted_head_least (a : Z) (l : list Z) :
  StronglySorted Z.le (a :: l) -> forall y, y ∈ a :: l -> a <= y.
Proof.
  intros [_ Ha]%StronglySorted_inv y [->|Hy]%elem_of_cons; [lia|].
  rewrite Forall_forall in Ha. by apply Ha.
Qed.

Lemma node_at_ring dc x :
  is_Some (node_map dc !! x) ->
  exists node, node_at dc x = OK node /\ node_map dc !! x = Some node.
Proof. intros [node Hn]. exists node. unfold node_at. by rewrite Hn. Qed.

Lemma get_node_successor dc key :
  node_map dc <> ∅ ->
  exists hk node,
    _get_node dc key = OK node
    /\ node_map dc !! hk = Some node
    /\ (forall y, is_Some (node_map dc !! y) -> _hash key <= y ->
          _hash key <= hk /\ hk <= y)
    /\ ((forall y, is_Some (node_map dc !! y) -> y < _hash key) ->
          forall y, is_Some (node_map dc !! y) -> hk <= y).
Proof.
  intros Hne. unfold _get_node.
  pose proof (find_successor (sorted_keys dc) (_hash key) (sorted_keys_sorted dc))
    as Hfind.
  destruct (List.find _ (sorted_keys dc)) as [x|].
  - destruct Hfind as (Hin & Hx & Hmin).
    apply elem_of_sorted_keys, node_at_ring in Hin as (node & -> & Hn).
    exists x, node. split_and!; [done | done | |].
    + intros y Hy%elem_of_sorted_keys Hle. split; [done | by apply Hmin].
    + intros Hall. exfalso.
      assert (x < _hash key) by (apply Hall; eauto). lia.
  - destruct (sorted_keys dc) as [|first rest] eqn:Hks.
    + destruct Hne. apply map_empty. intros i. apply eq_None_not_Some.
      rewrite <- elem_of_sorted_keys, Hks. by intros ?%elem_of_nil.
    + assert (Hin : first ∈ sorted_keys dc) by (rewrite Hks; left).
      apply elem_of_sorted_keys, node_at_ring in Hin as (node & -> & Hn).
      exists first, node. split_and!; [done | done | |].
      * intros y Hy%elem_of_sorted_keys Hle. rewrite Hks in Hy.
        specialize (Hfind y Hy). lia.
      * intros _ y Hy%elem_of_sorted_keys. rewrite Hks in Hy.
        pose proof (sorted_keys_sorted dc) as Hs. rewrite Hks in Hs.
        by apply (sorted_head_least first rest).
Qed.

Lemma get_node_empty dc key : node_map dc = ∅ -> _get_node dc key = Raise IndexError.
Proof.
  intros Hm. unfold _get_node. by rewrite (sorted_keys_empty dc Hm).
Qed.
End locate.

Lemma ring_keys_are_digests (h : heap) (nodes : list ref) (hk : Z) :
  is_Some (DistributedCache._create_node_map h nodes !! hk) ->
  exists node i,
    node ∈ nodes /\ (i < 3)%nat
    /\ hk = DistributedCache._hash
              (DistributedCache.vnode_name (CacheNode.node_id (h node)) i)
    /\ 0 <= hk < 2 ^ 256.
Proof.
  intros Hin%node_map_keys. apply list_elem_of_fmap in Hin as ([k r] & -> & Hin).
  unfold vpoints in Hin. apply list_elem_of_bind in Hin as (node & Hp & Hnode).
  unfold node_points in Hp. apply list_elem_of_fmap in Hp as (i & [= -> ->] & Hi).
  apply elem_of_seq in Hi. exists node, i. split_and!; [done | lia | done | |];
    apply sha256_int_range.
Qed.

(** C2.  On a non-empty ring [_get_node] hashes the key with the 256-bit
    digest that also produced every ring key, and returns the shard stored
    at the least ring hash at or above the key's hash; when every ring hash
    is below the key's hash it returns the shard at the least ring hash.
    The result depends on the ring and the key alone. *)
Theorem locate_returns_ring_successor (dc : DistributedCache.t) (key : string) :
  DistributedCache.node_map dc <> ∅ ->
  0 <= DistributedCache._hash key < 2 ^ 256
  /\ (forall h nodes hk,
        is_Some (DistributedCache._create_node_map h nodes !! hk) ->
        exists node i,
          node ∈ nodes /\ (i < 3)%nat
          /\ hk = DistributedCache._hash
                    (DistributedCache.vnode_name (CacheNode.node_id (h node)) i)
          /\ 0 <= hk < 2 ^ 256)
  /\ (exists hk node,
        DistributedCache._get_node dc key = OK node
        /\ DistributedCache.node_map dc !! hk = Some node
        /\ (forall y, is_Some (DistributedCache.node_map dc !! y) ->
              DistributedCache._hash key <= y ->
              DistributedCache._hash key <= hk /\ hk <= y)
        /\ ((forall y, is_Some (DistributedCache.node_map dc !! y) ->
               y < DistributedCache._hash key) ->
            forall y, is_Some (DistributedCache.node_map dc !! y) -> hk <= y))
  /\ (forall dc',
        DistributedCache.node_map dc' = DistributedCache.node_map dc ->
        DistributedCache._get_node dc' key = DistributedCache._get_node dc key).
Proof.
  intros Hne. split_and!.
  - apply sha256_int_range.
  - apply sha256_int_range.
  - apply ring_keys_are_digests.
  - by apply get_node_successor.
  - intros dc' Hm. unfold DistributedCache._get_node, DistributedCache.node_at,
      DistributedCache.sorted_keys. by rewrite Hm.
Qed.

Lemma main_cache_routes_driver_1 :
  DistributedCache._get_node main_cache "driver_1" = OK 2%nat.
Proof. vm_compute. reflexivity. Qed.

Lemma locate_returns_ring_successor_witness :
  DistributedCache.node_map main_cache <> ∅
  /\ exists hk node,
       DistributedCache._get_node main_cache "driver_1" = OK node
       /\ DistributedCache.node_map main_cache !! hk = Some node
       /\ (forall y, is_Some (DistributedCache.node_map main_cache !! y) ->
             DistributedCache._hash "driver_1" <= y ->
             DistributedCache._hash "driver_1" <= hk /\ hk <= y)
       /\ ((forall y, is_Some (DistributedCache.node_map main_cache !! y) ->
              y < DistributedCache._hash "driver_1") ->
           forall y, is_Some (DistributedCache.node_map main_cache !! y) -> hk <= y).
Proof.
  assert (Hne : DistributedCache.node_map main_cache <> ∅)
    by apply create_node_map_nonempty.
  split; [exact Hne|].
  apply (proj1 (proj2 (proj2 (locate_returns_ring_successor main_cache "driver_1" Hne)))).
Defined.

(** ** Colliding virtual points *)

(** C8 as stated fails: both shards hash the names node1_0, node1_1 and
    node1_2, so each point of the first shard is overwritten by the point
    of the second, and the ring has 3 entries instead of 2 x 3. *)
Lemma colliding_points_are_overwritten :
  let dc := DistributedCache.__init__ twin_heap [0; 1]%nat in
  size (DistributedCache.node_map dc) = 3%nat
  /\ size (DistributedCache.node_map dc) <> (2 * 3)%nat
  /\ DistributedCache.node_map dc !! DistributedCache._hash "node1_0" = Some 1%nat
  /\ DistributedCache.node_map dc !! DistributedCache._hash "node1_1" = Some 1%nat
  /\ DistributedCache.node_map dc !! DistributedCache._hash "node1_2" = Some 1%nat.
Proof. vm_compute. split_and!; try reflexivity. discriminate. Qed.

(** C8, as the code has it.  The ring is a map keyed by hash value.  Its
    keys are the hash values of the 3 x S virtual points; of the points
    that share one hash value the point visited last (shard-list order,
    then index order) is kept and the others are dropped.  So the ring has
    at most 3 x S entries: exactly 3 x S when the hash values are pairwise
    distinct, fewer as soon as two coincide. *)
Theorem ring_keeps_one_point_per_hash (h : heap) (nodes : list ref) :
  let ring := DistributedCache.node_map (DistributedCache.__init__ h nodes) in
  let pts := vpoints h nodes in
  length pts = (3 * length nodes)%nat
  /\ (forall hk, is_Some (ring !! hk) <-> hk ∈ pts.*1)
  /\ (forall l1 l2 hk node,
        pts = l1 ++ (hk, node) :: l2 -> hk ∉ l2.*1 -> ring !! hk = Some node)
  /\ (size ring <= 3 * length nodes)%nat
  /\ (NoDup pts.*1 -> size ring = (3 * length nodes)%nat)
  /\ (~ NoDup pts.*1 -> (size ring < 3 * length nodes)%nat).
Proof.
  intros ring pts. unfold ring. simpl.
  destruct (create_node_map_size h nodes) as (Hle & Heq & Hlt).
  split_and!; try done.
  - apply length_vpoints.
  - apply node_map_keys.
  - intros l1 l2 hk node Hpts Hlast.
    unfold DistributedCache._create_node_map. rewrite fold_add_node.
    fold pts. rewrite Hpts. by apply last_point_wins.
Qed.

(** ** Preconditions that nothing checks *)

Section preconditions.
Import CacheNode.
Implicit Types (n : t) (key k : string) (now : Z).

(** A counting shard of capacity zero or less never gets to hold a key. *)
Lemma reachable_no_capacity n :
  reachable n -> counting n -> max_size n <= 0 ->
  cache n = [] /\ access_times n = [] /\ access_counts n = [].
Proof.
  induction 1 as [id policy size|n c n' Hr IH Hs]; intros Hc Hcap; [done|].
  destruct (step_policy _ _ _ Hs) as [Hp Hm].
  destruct IH as (Hcache & Ht & Hn); [unfold counting in *; by rewrite <- Hp | lia |].
  destruct c as [now key|now key value ta|key]; simpl in Hs.
  - rewrite get_absent in Hs by (by rewrite Hcache). by injection Hs as <-.
  - exfalso. revert Hs. rewrite set_unfold.
    assert (Hge : (len n >=? max_size n) = true).
    { apply Z.geb_le. unfold len. rewrite Hcache. simpl. lia. }
    rewrite Hge. unfold counting in Hc. rewrite Hp in Hc.
    destruct Hc as [Hc|Hc];
      [rewrite evict_lru, Ht by done | rewrite evict_lfu, Hn by done]; done.
  - rewrite invalidate_noop in Hs by (by rewrite Hcache). by injection Hs as <-.
Qed.

Lemma set_no_capacity n now key value ta :
  reachable n -> counting n -> max_size n <= 0 ->
  set n now key value ta = Raise ValueError.
Proof.
  intros Hr Hc Hcap.
  destruct (reachable_no_capacity n Hr Hc Hcap) as (Hcache & Ht & Hn).
  rewrite set_unfold.
  assert (Hge : (len n >=? max_size n) = true).
  { apply Z.geb_le. unfold len. rewrite Hcache. simpl. lia. }
  rewrite Hge.
  destruct Hc as [Hc|Hc];
    [rewrite evict_lru, Ht by done | rewrite evict_lfu, Hn by done]; done.
Qed.
End preconditions.

Lemma facade_on_empty_ring (dc : DistributedCache.t) (h : heap) (now : Z)
    (key value : string) (ta : option Z) :
  DistributedCache.node_map dc = ∅ ->
  DistributedCache.get dc h now key = Raise IndexError
  /\ DistributedCache.set dc h now key value ta = Raise IndexError
  /\ DistributedCache.invalidate dc h key = Raise IndexError.
Proof.
  intros Hm. unfold DistributedCache.get, DistributedCache.set,
    DistributedCache.invalidate. by rewrite !get_node_empty.
Qed.

(** C9 as stated fails: both constructions return normally, and the error
    appears at the first request, [IndexError] from [_get_node] and
    [ValueError] from [_evict]. *)
Lemma bad_preconditions_fail_in_requests :
  (exists dc, DistributedCache.__init__ main_heap [] = dc
     /\ DistributedCache.node_map dc = ∅
     /\ DistributedCache.get dc main_heap 0 "driver_1" = Raise IndexError)
  /\ (exists n, CacheNode.__init__ "node2" "LRU" 0 = n
        /\ CacheNode.max_size n = 0
        /\ CacheNode.set n 0 "driver_1" "available" None = Raise ValueError).
Proof.
  split; eexists; split_and!; try reflexivity.
Qed.

(** C9, as the code has it.  Neither precondition is checked when the
    objects are built: a cache built from no shard has an empty ring, and
    a shard is built with any capacity.  The violations surface inside the
    requests: on an empty ring every [get], [set] and [invalidate] of the
    facade raises [IndexError], and on an LRU or LFU shard whose capacity
    is zero or negative every [set] raises [ValueError]. *)
Theorem unchecked_preconditions_raise_in_requests :
  (forall h, DistributedCache.node_map (DistributedCache.__init__ h []) = ∅)
  /\ (forall dc h now key value ta,
        DistributedCache.node_map dc = ∅ ->
        DistributedCache.get dc h now key = Raise IndexError
        /\ DistributedCache.set dc h now key value ta = Raise IndexError
        /\ DistributedCache.invalidate dc h key = Raise IndexError)
  /\ (forall id policy size,
        CacheNode.reachable (CacheNode.__init__ id policy size)
        /\ CacheNode.max_size (CacheNode.__init__ id policy size) = size)
  /\ (forall n now key value ta,
        CacheNode.reachable n ->
        CacheNode.eviction_policy n = "LRU" \/ CacheNode.eviction_policy n = "LFU" ->
        CacheNode.max_size n <= 0 ->
        CacheNode.set n now key value ta = Raise ValueError).
Proof.
  split_and!.
  - done.
  - intros. by apply facade_on_empty_ring.
  - intros. split; [constructor | done].
  - intros. by apply set_no_capacity.
Qed.

Lemma unchecked_preconditions_raise_in_requests_witness :
  CacheNode.set (CacheNode.__init__ "node3" "LFU" (-1)) 0 "user_1" "profile_data" None
    = Raise ValueError
  /\ DistributedCache.set (DistributedCache.__init__ main_heap []) main_heap 0
       "user_1" "profile_data" None = Raise IndexError.
Proof.
  split.
  - apply (proj2 (proj2 (proj2 unchecked_preconditions_raise_in_requests))).
    + constructor.
    + by right.
    + simpl. lia.
  - apply (proj1 (proj2 unchecked_preconditions_raise_in_requests)
             (DistributedCache.__init__ main_heap []) main_heap 0
             "user_1" "profile_data" None).
    reflexivity.
Defined.

(** ** The invalidation bus *)

Section bus.
Import PubSubSystem.
Implicit Types (ps : t) (h : heap) (node : ref) (channel key : string).

Lemma subscribers_of_subscribe ps channel node c :
  subscribers_of (subscribe ps channel node) c =
    if decide (c = channel) then subscribers_of ps channel ++ [node]
    else subscribers_of ps c.
Proof.
  unfold subscribers_of, subscribe. simpl.
  destruct (decide (c = channel)) as [->|Hne].
  - rewrite lookup_alter_eq.
    destruct (subscribers ps !! channel) as [l|] eqn:Hl.
    + by rewrite Hl.
    + by rewrite lookup_insert_eq.
  - rewrite lookup_alter_ne by done.
    destruct (subscribers ps !! channel) as [l|]; [done|].
    by rewrite lookup_insert_ne.
Qed.

(** Subscription order: the list of a channel is the shards subscribed
    to it, oldest first, each as often as it subscribed. *)
Lemma subscribers_of_subscribe_all evs c :
  subscribers_of (subscribe_all evs) c =
    (filter (fun e => e.1 = c) evs).*2.
Proof.
  unfold subscribe_all. induction evs as [|[ch node] evs IH] using rev_ind.
  - unfold subscribers_of. simpl. by rewrite lookup_empty.
  - rewrite fold_left_app, filter_app, fmap_app. cbn [fold_left].
    rewrite subscribers_of_subscribe. simpl.
    rewrite filter_cons, filter_nil. simpl.
    destruct (decide (c = ch)) as [->|Hne].
    + rewrite decide_True by done. by rewrite IH.
    + rewrite decide_False by done. rewrite IH. simpl. by rewrite app_nil_r.
Qed.

Lemma notify_calls subs key h :
  (notify subs key h).2 = (fun node => (node, key)) <$> subs.
Proof.
  revert h. induction subs as [|node subs IH]; intros h; simpl; [done|].
  by rewrite IH.
Qed.

Lemma heap_insert_eq (h : heap) (node : ref) (n : CacheNode.t) :
  (<[node := n]> h) node = n.
Proof. apply fn_lookup_insert. Qed.

Lemma heap_insert_ne (h : heap) (node node' : ref) (n : CacheNode.t) :
  node <> node' -> (<[node := n]> h) node' = h node'.
Proof. apply fn_lookup_insert_ne. Qed.

(** After the loop a shard of the list has had [invalidate]; any other
    shard is as it was. *)
Lemma notify_heap subs key h node :
  (notify subs key h).1 node =
    if decide (node ∈ subs) then CacheNode.invalidate (h node) key else h node.
Proof.
  revert h. induction subs as [|s subs IH]; intros h; cbn [notify fst].
  - rewrite decide_False; [done|]. by intros ?%elem_of_nil.
  - rewrite IH. destruct (decide (s = node)) as [->|Hne].
    + rewrite heap_insert_eq, invalidate_idempotent.
      rewrite (decide_True (P := node ∈ node :: subs)) by left.
      by case_decide.
    + rewrite heap_insert_ne by done.
      destruct (decide (node ∈ subs)) as [Hin|Hin].
      * rewrite decide_True; [done | by right].
      * rewrite decide_False; [done|].
        intros [->|?]%elem_of_cons; done.
Qed.

Lemma publish_notify ps h channel key :
  publish ps h channel key = notify (subscribers_of ps channel) key h.
Proof.
  unfold publish, subscribers_of.
  by destruct (subscribers ps !! channel).
Qed.
End bus.

(** C7.  [publish] calls [invalidate(key)] on the shards of the channel's
    subscriber list, in list order and once per occurrence; the list holds
    the shards in the order they subscribed, a shard as often as it
    subscribed.  Afterwards no subscribed shard holds the key, no other key
    has moved, and the other shards are untouched.  With no subscriber,
    [publish] returns the heap it was given and makes no call. *)
Theorem publish_invalidates_every_subscriber
    (ps : PubSubSystem.t) (h : heap) (channel key : string) :
  let subs := subscribers_of ps channel in
  let r := PubSubSystem.publish ps h channel key in
  r.2 = (fun node => (node, key)) <$> subs
  /\ (forall node, node ∈ subs -> dict_get (CacheNode.cache (r.1 node)) key = None)
  /\ (forall node, node ∈ subs -> r.1 node = CacheNode.invalidate (h node) key)
  /\ (forall node, node ∉ subs -> r.1 node = h node)
  /\ (forall node k, k <> key ->
        dict_get (CacheNode.cache (r.1 node)) k = dict_get (CacheNode.cache (h node)) k)
  /\ (subs = [] -> r = (h, []))
  /\ (forall evs c,
        subscribers_of (subscribe_all evs) c = (filter (fun e => e.1 = c) evs).*2).
Proof.
  intros subs r. unfold r, subs. rewrite publish_notify.
  split_and!.
  - apply notify_calls.
  - intros node Hin. rewrite notify_heap, decide_True by done.
    apply invalidate_absent.
  - intros node Hin. by rewrite notify_heap, decide_True.
  - intros node Hin. by rewrite notify_heap, decide_False.
  - intros node k Hne. rewrite notify_heap. case_decide; [|done].
    by apply invalidate_other.
  - by intros ->.
  - apply subscribers_of_subscribe_all.
Qed.

(** The bus of [main] with node1 subscribed a second time. *)
Lemma publish_twice_subscribed :
  let ps := subscribe_all
              [("cache_invalidation", 0%nat); ("cache_invalidation", 1%nat);
               ("other", 2%nat); ("cache_invalidation", 0%nat)] in
  subscribers_of ps "cache_invalidation" = [0; 1; 0]%nat
  /\ (PubSubSystem.publish ps main_heap "cache_invalidation" "driver_1").2 =
       [(0%nat, "driver_1"); (1%nat, "driver_1"); (0%nat, "driver_1")]
  /\ PubSubSystem.publish ps main_heap "nobody" "driver_1" = (main_heap, []).
Proof. vm_compute. done. Qed.

Lemma publish_invalidates_every_subscriber_witness :
  let ps := subscribe_all
              [("cache_invalidation", 0%nat); ("cache_invalidation", 1%nat);
               ("cache_invalidation", 0%nat)] in
  let r := PubSubSystem.publish ps warm_heap "cache_invalidation" "driver_1" in
  r.2 = [(0%nat, "driver_1"); (1%nat, "driver_1"); (0%nat, "driver_1")]
  /\ dict_get (CacheNode.cache (r.1 0%nat)) "driver_1" = None
  /\ dict_get (CacheNode.cache (r.1 1%nat)) "driver_1" = None
  /\ dict_get (CacheNode.cache (r.1 1%nat)) "user_1" = Some "p"
  /\ r.1 2%nat = warm_heap 2%nat.
Proof.
  intros ps r.
  destruct (publish_invalidates_every_subscriber ps warm_heap
              "cache_invalidation" "driver_1")
    as (Hcalls & Hgone & _ & Hframe & Hkeys & _).
  split_and!.
  - exact Hcalls.
  - apply Hgone. by vm_compute; left.
  - apply Hgone. vm_compute. right. left.
  - rewrite Hkeys by done. reflexivity.
  - apply Hframe. vm_compute.
    intros Hin. repeat (apply elem_of_cons in Hin as [Hin|Hin]; [done|]).
    by apply elem_of_nil in Hin.
Defined.

Lemma ring_keeps_one_point_per_hash_witness :
  size (DistributedCache.node_map (DistributedCache.__init__ main_heap [0; 1; 2]%nat))
    = 9%nat.
Proof.
  apply (proj1 (proj2 (proj2 (proj2 (proj2
           (ring_keeps_one_point_per_hash main_heap [0; 1; 2]%nat)))))).
  apply (bool_decide_unpack _). vm_compute. exact I.
Defined.

(** * Further properties of the code *)

(** ** [invalidate], the invariant and the errors of a shard *)

Section shard_more.
Import CacheNode.
Implicit Types (n : t) (key k : string) (now : Z).

Lemma store_node_id n now key value ta :
  node_id (store n now key value ta) = node_id n.
Proof.
  unfold store.
  repeat (match goal with |- context [if ?b then _ else _] => destruct b end);
    try done. by destruct ta.
Qed.

Lemma sweep_node_id ks n : node_id (fold_left invalidate ks n) = node_id n.
Proof.
  revert n. induction ks as [|k ks IH]; intros n; simpl; [done|].
  rewrite IH. apply invalidate_node_id.
Qed.

Lemma step_node_id n c n' : step n c = OK n' -> node_id n' = node_id n.
Proof.
  destruct c as [now key|now key value ta|key]; simpl.
  - destruct (get n now key) as [[n1 r]|] eqn:Hg; [|done]. intros [= <-].
    apply get_cache in Hg as Hc. revert Hg. unfold get.
    destruct (dict_get (cache n) key); [|by intros [= <- _]].
    repeat (match goal with
            | |- context [if ?b then _ else _] => destruct b
            | |- context [match dict_get ?d ?k with _ => _ end] =>
                destruct (dict_get d k)
            end); try done; intros [= <- _]; auto using invalidate_node_id.
  - rewrite set_unfold. destruct (len n >=? max_size n).
    + destruct (_evict n now) as [n1|] eqn:He; [|done]. simpl. intros [= <-].
      rewrite store_node_id. destruct (evict_is_sweep _ _ _ He) as [ks ->].
      apply sweep_node_id.
    + intros [= <-]. apply store_node_id.
  - intros [= <-]. apply invalidate_node_id.
Qed.

Lemma run_configuration n cs n' :
  run n cs = OK n' ->
  node_id n' = node_id n /\ eviction_policy n' = eviction_policy n
  /\ max_size n' = max_size n.
Proof.
  revert n. induction cs as [|c cs IH]; intros n; simpl.
  - by intros [= <-].
  - destruct (step n c) as [n1|] eqn:Hs; [|done]. simpl. intros Hr.
    destruct (IH _ Hr) as (H1 & H2 & H3).
    destruct (step_policy _ _ _ Hs) as [H4 H5].
    pose proof (step_node_id _ _ _ Hs). split_and!; congruence.
Qed.

(** On a reachable shard a call can only raise in one way. *)
Lemma step_raises n c e :
  wf n -> step n c = Raise e ->
  e = ValueError /\ counting n /\ max_size n <= 0 /\ cache n = []
  /\ exists now key value ta, c = CallSet now key value ta.
Proof.
  intros Hwf. destruct c as [now key|now key value ta|key]; simpl.
  - destruct (get_returns n now key Hwf) as (n' & r & ->). done.
  - rewrite set_unfold. destruct (len n >=? max_size n) eqn:Hfull; [|done].
    apply Z.geb_le in Hfull.
    destruct (decide (cache n = [])) as [Hnil|Hne].
    + assert (Ht : access_times n = []).
      { destruct (access_times n) as [|[k0 v0] l] eqn:Hl; [done|].
        assert (Hk : k0 ∈ keys (cache n))
          by (apply (wf_times n Hwf); rewrite Hl; left).
        rewrite Hnil in Hk. by apply elem_of_nil in Hk. }
      assert (Hn : access_counts n = []).
      { destruct (access_counts n) as [|[k0 v0] l] eqn:Hl; [done|].
        assert (Hk : k0 ∈ keys (cache n))
          by (apply (wf_counts n Hwf); rewrite Hl; left).
        rewrite Hnil in Hk. by apply elem_of_nil in Hk. }
      assert (Hcap : max_size n <= 0)
        by (unfold len in Hfull; rewrite Hnil in Hfull; simpl in Hfull; lia).
      destruct (policy_cases (eviction_policy n)) as [Hp|Hp|Hp|H1 H2 H3].
      * rewrite evict_lru, Ht by done. simpl. intros [= <-].
        split_and!; eauto 10. by left.
      * rewrite evict_lfu, Hn by done. simpl. intros [= <-].
        split_and!; eauto 10. by right.
      * by rewrite evict_ttl.
      * by rewrite evict_other.
    + destruct (evict_returns n now Hwf Hne) as [n1 ->]. done.
  - done.
Qed.
End shard_more.

(** X1.  [invalidate] on a reachable shard removes the key from the
    entries and from the three metadata maps, leaves every other key of
    the four maps as it was, and is idempotent; on a key that is not
    stored it changes nothing. *)
Theorem invalidate_removes_one_key (n : CacheNode.t) (key : string) :
  CacheNode.reachable n ->
  let n' := CacheNode.invalidate n key in
  (dict_get (CacheNode.cache n') key = None
   /\ dict_get (CacheNode.access_times n') key = None
   /\ dict_get (CacheNode.access_counts n') key = None
   /\ dict_get (CacheNode.ttl n') key = None)
  /\ (forall k, k <> key ->
        dict_get (CacheNode.cache n') k = dict_get (CacheNode.cache n) k
        /\ dict_get (CacheNode.access_times n') k =
             dict_get (CacheNode.access_times n) k
        /\ dict_get (CacheNode.access_counts n') k =
             dict_get (CacheNode.access_counts n) k
        /\ dict_get (CacheNode.ttl n') k = dict_get (CacheNode.ttl n) k)
  /\ CacheNode.invalidate n' key = n'
  /\ (dict_get (CacheNode.cache n) key = None -> n' = n).
Proof.
  intros Hr%reachable_wf n'. unfold n'. split; [|split; [|split]].
  - rewrite invalidate_spec by done. simpl.
    split_and!; apply dict_get_del_eq.
  - intros k Hne. rewrite invalidate_spec by done. simpl.
    split_and!; by apply dict_get_del_ne.
  - apply invalidate_idempotent.
  - apply invalidate_noop.
Qed.

Lemma invalidate_removes_one_key_witness :
  let n' := CacheNode.invalidate lru_full "A" in
  dict_get (CacheNode.cache n') "A" = None
  /\ dict_get (CacheNode.access_times n') "A" = None
  /\ dict_get (CacheNode.cache n') "B" = Some "2"
  /\ dict_get (CacheNode.access_times n') "B" = Some 2.
Proof.
  destruct (invalidate_removes_one_key lru_full "A" lru_full_reachable)
    as ((Hc & Ht & _) & Hframe & _).
  destruct (Hframe "B") as (Hc' & Ht' & _); [done|].
  split_and!; [exact Hc | exact Ht | by rewrite Hc' | by rewrite Ht'].
Defined.

(** X2.  Every shard reached from its constructor, whatever its policy
    string and capacity, keeps these facts: the keys of each of its four
    maps are pairwise distinct; each metadata key is a stored key; on an
    LRU shard the access-time map has exactly the stored keys and on an
    LFU shard the access-count map has; the maps of the policies the shard
    does not run are empty. *)
Theorem reachable_shard_representation (n : CacheNode.t) :
  CacheNode.reachable n ->
  (NoDup (keys (CacheNode.cache n)) /\ NoDup (keys (CacheNode.access_times n))
   /\ NoDup (keys (CacheNode.access_counts n)) /\ NoDup (keys (CacheNode.ttl n)))
  /\ (forall k, k ∈ keys (CacheNode.ttl n) -> k ∈ keys (CacheNode.cache n))
  /\ (CacheNode.eviction_policy n = "LRU" ->
      forall k, k ∈ keys (CacheNode.access_times n) <-> k ∈ keys (CacheNode.cache n))
  /\ (CacheNode.eviction_policy n = "LFU" ->
      forall k, k ∈ keys (CacheNode.access_counts n) <-> k ∈ keys (CacheNode.cache n))
  /\ (CacheNode.eviction_policy n <> "LRU" -> CacheNode.access_times n = [])
  /\ (CacheNode.eviction_policy n <> "LFU" -> CacheNode.access_counts n = [])
  /\ (CacheNode.eviction_policy n <> "TTL" -> CacheNode.ttl n = []).
Proof.
  intros [] %reachable_wf. split_and!; try done.
  - intros Hp k. split; [apply wf_times0 | by apply wf_lru0].
  - intros Hp k. split; [apply wf_counts0 | by apply wf_lfu0].
Qed.

Lemma reachable_shard_representation_witness :
  CacheNode.access_counts ttl_full = [] /\ CacheNode.access_times ttl_full = [].
Proof.
  destruct (reachable_shard_representation ttl_full ttl_full_reachable)
    as (_ & _ & _ & _ & Ht & Hc & _).
  split; [by apply Hc | by apply Ht].
Defined.

(** X3.  No sequence of calls changes the identifier, the policy or the
    capacity a shard was built with. *)
Theorem calls_keep_configuration (id policy : string) (size : Z)
    (cs : list CacheNode.call) (n : CacheNode.t) :
  CacheNode.run (CacheNode.__init__ id policy size) cs = OK n ->
  CacheNode.node_id n = id /\ CacheNode.eviction_policy n = policy
  /\ CacheNode.max_size n = size.
Proof. intros Hr. by apply run_configuration in Hr. Qed.

Lemma calls_keep_configuration_witness :
  CacheNode.node_id ttl_full = "node1" /\ CacheNode.eviction_policy ttl_full = "TTL"
  /\ CacheNode.max_size ttl_full = 2.
Proof.
  apply (calls_keep_configuration "node1" "TTL" 2
           [CacheNode.CallSet 0 "a" "x" (Some 60); CacheNode.CallSet 5 "b" "y" None]).
  reflexivity.
Defined.

(** X4.  On a reachable shard the only call that can raise is [set], the
    only exception is [ValueError], and it needs an LRU or LFU shard that
    is empty and has a capacity of zero or less; [get] and [invalidate]
    never raise, and the [KeyError] of the LFU counter never occurs. *)
Theorem only_set_on_zero_capacity_raises
    (n : CacheNode.t) (c : CacheNode.call) (e : exn) :
  CacheNode.reachable n -> CacheNode.step n c = Raise e ->
  e = ValueError
  /\ (CacheNode.eviction_policy n = "LRU" \/ CacheNode.eviction_policy n = "LFU")
  /\ CacheNode.max_size n <= 0
  /\ CacheNode.cache n = []
  /\ exists now key value ta, c = CacheNode.CallSet now key value ta.
Proof. intros Hr%reachable_wf. by apply step_raises. Qed.

Lemma only_set_on_zero_capacity_raises_witness :
  ValueError = ValueError
  /\ (CacheNode.eviction_policy (CacheNode.__init__ "node2" "LRU" 0) = "LRU"
      \/ CacheNode.eviction_policy (CacheNode.__init__ "node2" "LRU" 0) = "LFU")
  /\ CacheNode.max_size (CacheNode.__init__ "node2" "LRU" 0) <= 0
  /\ CacheNode.cache (CacheNode.__init__ "node2" "LRU" 0) = []
  /\ exists now key value ta,
       CacheNode.CallSet 7 "k" "v" None = CacheNode.CallSet now key value ta.
Proof.
  apply (only_set_on_zero_capacity_raises
           (CacheNode.__init__ "node2" "LRU" 0) (CacheNode.CallSet 7 "k" "v" None)).
  - constructor.
  - reflexivity.
Defined.

(** ** LFU eviction and counters *)

Section lfu.
Import CacheNode.
Implicit Types (n : t) (key k : string) (now : Z).

Lemma set_lfu_full n now key value ta :
  wf n -> eviction_policy n = "LFU" ->
  0 < max_size n -> max_size n <= len n ->
  dict_get (cache n) key = None ->
  exists victim c n',
    dict_get (access_counts n) victim = Some c
    /\ (forall k c', dict_get (access_counts n) k = Some c' -> c <= c')
    /\ is_Some (dict_get (cache n) victim)
    /\ set n now key value ta = OK n'
    /\ cache n' = dict_del victim (cache n) ++ [(key, value)]
    /\ access_counts n' = dict_del victim (access_counts n) ++ [(key, 1)]
    /\ len n' = len n.
Proof.
  intros Hwf Hp Hpos Hfull Hnew.
  destruct (evict_lfu_victim n now) as (victim & c & He & Hin & Hmin & Hc);
    [done..| |].
  { unfold len in *. destruct (cache n); simpl in *; [lia|done]. }
  assert (Hcache : cache (store (invalidate n victim) now key value ta)
                   = dict_del victim (cache n) ++ [(key, value)]).
  { rewrite store_cache, invalidate_cache. apply dict_set_new.
    destruct (decide (victim = key)) as [->|Hne];
      [apply dict_get_del_eq | by rewrite dict_get_del_ne]. }
  exists victim, c. eexists. split_and!.
  - apply elem_of_dict_get; [apply (wf_counts_nodup n Hwf) | done].
  - intros k c' Hk%dict_get_Some_elem.
    rewrite Forall_forall in Hmin. by apply (Hmin (k, c')).
  - by apply dict_get_is_Some.
  - rewrite set_unfold, (proj2 (Z.geb_le _ _) Hfull), He. reflexivity.
  - done.
  - rewrite store_lfu by (by rewrite invalidate_policy).
    rewrite (invalidate_spec n victim Hwf). simpl. apply dict_set_new.
    apply dict_get_None. rewrite elem_of_keys_del.
    intros [_ Hk%(wf_counts n Hwf)]. apply dict_get_None in Hnew. done.
  - unfold len. rewrite Hcache, length_app. simpl.
    pose proof (length_dict_del (cache n) victim (wf_cache n Hwf) Hc). lia.
Qed.

Lemma get_lfu_increment n now key value :
  wf n -> eviction_policy n = "LFU" -> dict_get (cache n) key = Some value ->
  exists c n',
    dict_get (access_counts n) key = Some c
    /\ get n now key = OK (n', Some value)
    /\ dict_get (access_counts n') key = Some (c + 1)
    /\ cache n' = cache n
    /\ (forall k, k <> key ->
          dict_get (access_counts n') k = dict_get (access_counts n) k).
Proof.
  intros Hwf Hp Hg.
  assert (Hin : key ∈ keys (access_counts n)).
  { apply (wf_lfu n Hwf Hp), dict_get_is_Some. eauto. }
  apply dict_get_is_Some in Hin as [c Hc].
  rewrite (get_lfu _ _ _ value), Hc by done. exists c. eexists.
  split_and!; [done | done | apply dict_get_set_eq | done |].
  intros k Hne. simpl. by apply dict_get_set_ne.
Qed.

Lemma set_lfu_resets n now key value ta n' :
  eviction_policy n = "LFU" -> set n now key value ta = OK n' ->
  dict_get (access_counts n') key = Some 1.
Proof.
  intros Hp. rewrite set_unfold. destruct (len n >=? max_size n).
  - destruct (_evict n now) as [n1|] eqn:He; [|done]. simpl. intros [= <-].
    rewrite store_lfu by (by rewrite (evict_policy _ _ _ He)).
    apply dict_get_set_eq.
  - intros [= <-]. rewrite store_lfu by done. apply dict_get_set_eq.
Qed.
End lfu.

Lemma lfu_full_reachable : CacheNode.reachable lfu_full.
Proof.
  apply (run_reachable (CacheNode.__init__ "node3" "LFU" 2)
           [CacheNode.CallSet 1 "A" "1" None; CacheNode.CallSet 2 "B" "2" None;
            CacheNode.CallGet 3 "A"; CacheNode.CallGet 4 "A"]).
  - constructor.
  - reflexivity.
Qed.

(** X5.  A full LFU shard of positive capacity that is given a new key
    removes one stored key whose access count is smallest, appends the new
    key with count 1, keeps every other entry and stays exactly full. *)
Theorem lfu_evicts_least_frequently_used
    (n : CacheNode.t) (now : Z) (key value : string) (ta : option Z) :
  CacheNode.reachable n -> CacheNode.eviction_policy n = "LFU" ->
  0 < CacheNode.max_size n -> CacheNode.len n = CacheNode.max_size n ->
  dict_get (CacheNode.cache n) key = None ->
  exists victim c n',
    dict_get (CacheNode.access_counts n) victim = Some c
    /\ (forall k c', dict_get (CacheNode.access_counts n) k = Some c' -> c <= c')
    /\ is_Some (dict_get (CacheNode.cache n) victim)
    /\ CacheNode.set n now key value ta = OK n'
    /\ CacheNode.cache n' = dict_del victim (CacheNode.cache n) ++ [(key, value)]
    /\ CacheNode.access_counts n' =
         dict_del victim (CacheNode.access_counts n) ++ [(key, 1)]
    /\ CacheNode.len n' = CacheNode.len n.
Proof.
  intros Hr Hp Hpos Hfull Hnew.
  apply set_lfu_full; [by apply reachable_wf | done | done | lia | done].
Qed.

Lemma lfu_evicts_least_frequently_used_witness :
  exists victim c n',
    dict_get (CacheNode.access_counts lfu_full) victim = Some c
    /\ (forall k c', dict_get (CacheNode.access_counts lfu_full) k = Some c' -> c <= c')
    /\ is_Some (dict_get (CacheNode.cache lfu_full) victim)
    /\ CacheNode.set lfu_full 5 "C" "3" None = OK n'
    /\ CacheNode.cache n' =
         dict_del victim (CacheNode.cache lfu_full) ++ [("C", "3")]
    /\ CacheNode.access_counts n' =
         dict_del victim (CacheNode.access_counts lfu_full) ++ [("C", 1)]
    /\ CacheNode.len n' = CacheNode.len lfu_full.
Proof.
  apply (lfu_evicts_least_frequently_used lfu_full 5 "C" "3" None).
  - apply lfu_full_reachable.
  - reflexivity.
  - reflexivity.
  - reflexivity.
  - reflexivity.
Defined.

(** X6.  On an LFU shard a [get] of a stored key returns its value, adds
    exactly one to the key's access count and touches no other count and
    no entry; a [set] that returns leaves the key's count at 1, also when
    the key was stored before, so overwriting forgets the key's history. *)
Theorem lfu_counts_reads_and_resets_on_write
    (n : CacheNode.t) (now : Z) (key value : string) :
  CacheNode.reachable n -> CacheNode.eviction_policy n = "LFU" ->
  (dict_get (CacheNode.cache n) key = Some value ->
   exists c n',
     dict_get (CacheNode.access_counts n) key = Some c
     /\ CacheNode.get n now key = OK (n', Some value)
     /\ dict_get (CacheNode.access_counts n') key = Some (c + 1)
     /\ CacheNode.cache n' = CacheNode.cache n
     /\ (forall k, k <> key ->
           dict_get (CacheNode.access_counts n') k =
           dict_get (CacheNode.access_counts n) k))
  /\ (forall ta n', CacheNode.set n now key value ta = OK n' ->
        dict_get (CacheNode.access_counts n') key = Some 1).
Proof.
  intros Hr%reachable_wf Hp. split.
  - by apply get_lfu_increment.
  - intros ta n'. by apply set_lfu_resets.
Qed.

Lemma lfu_counts_reads_and_resets_on_write_witness :
  (exists c n',
     dict_get (CacheNode.access_counts lfu_full) "A" = Some c
     /\ CacheNode.get lfu_full 9 "A" = OK (n', Some "1")
     /\ dict_get (CacheNode.access_counts n') "A" = Some (c + 1)
     /\ CacheNode.cache n' = CacheNode.cache lfu_full
     /\ (forall k, k <> "A" ->
           dict_get (CacheNode.access_counts n') k =
           dict_get (CacheNode.access_counts lfu_full) k)).
Proof.
  apply (proj1 (lfu_counts_reads_and_resets_on_write lfu_full 9 "A" "1"
                  lfu_full_reachable eq_refl)).
  reflexivity.
Defined.

(** ** What [get] returns, and expiry across [set] *)

Section reads.
Import CacheNode.
Implicit Types (n : t) (key k : string) (now : Z).

Lemma lapsed_ttl n now key :
  eviction_policy n = "TTL" ->
  lapsed n now key =
    match dict_get (ttl n) key with
    | Some expiry => now >? expiry
    | None => false
    end.
Proof. intros Hp. unfold lapsed. by rewrite Hp. Qed.

Lemma lapsed_not_ttl n now key : eviction_policy n <> "TTL" -> lapsed n now key = false.
Proof. intros Hp. unfold lapsed. by rewrite eqb_policy_false. Qed.

Lemma get_result n now key :
  wf n ->
  exists n',
    get n now key =
      OK (n', if lapsed n now key then None else dict_get (cache n) key)
    /\ (if lapsed n now key then n' = invalidate n key
        else cache n' = cache n /\ ttl n' = ttl n).
Proof.
  intros Hwf. destruct (dict_get (cache n) key) as [value|] eqn:Hg.
  - assert (Hin : key ∈ keys (cache n)) by (apply dict_get_is_Some; eauto).
    destruct (policy_cases (eviction_policy n)) as [Hp|Hp|Hp|H1 H2 H3].
    + rewrite lapsed_not_ttl by (by rewrite Hp).
      rewrite (get_lru _ _ _ value) by done. eauto.
    + rewrite lapsed_not_ttl by (by rewrite Hp).
      rewrite (get_lfu _ _ _ value) by done.
      apply (wf_lfu n Hwf Hp), dict_get_is_Some in Hin as [c ->]. eauto.
    + rewrite lapsed_ttl, (get_ttl _ _ _ value) by done.
      destruct (dict_get (ttl n) key) as [e|]; [destruct (now >? e)|]; eauto.
    + rewrite lapsed_not_ttl by done.
      rewrite (get_other _ _ _ value) by done. eauto.
  - rewrite get_absent by done.
    assert (Hl : lapsed n now key = false).
    { unfold lapsed. destruct (String.eqb _ _); [|done].
      assert (Hk : dict_get (ttl n) key = None); [|by rewrite Hk].
      apply dict_get_None. intros Hk%(wf_ttl n Hwf).
      by apply dict_get_None in Hg. }
    rewrite Hl. eauto.
Qed.



Lemma set_ttl_keeps_expiry n now key v0 v' e :
  wf n -> eviction_policy n = "TTL" ->
  dict_get (cache n) key = Some v0 -> dict_get (ttl n) key = Some e -> now < e ->
  exists n',
    set n now key v' None = OK n'
    /\ dict_get (cache n') key = Some v'
    /\ dict_get (ttl n') key = Some e
    /\ forall now', e < now' -> get n' now' key = OK (invalidate n' key, None).
Proof.
  intros Hwf Hp Hg Ht Hlt.
  assert (Hstore : forall n1, eviction_policy n1 = "TTL" ->
    dict_get (ttl n1) key = Some e ->
    let n' := store n1 now key v' None in
    dict_get (cache n') key = Some v'
    /\ dict_get (ttl n') key = Some e
    /\ forall now', e < now' -> get n' now' key = OK (invalidate n' key, None)).
  { intros n1 Hp1 Ht1 n'. unfold n'.
    assert (Hc : dict_get (cache (store n1 now key v' None)) key = Some v')
      by (rewrite store_cache; apply dict_get_set_eq).
    assert (Ht' : dict_get (ttl (store n1 now key v' None)) key = Some e)
      by (by rewrite store_ttl).
    split_and!; [done | done |]. intros now' Hlate.
    rewrite (get_ttl _ _ _ v'), Ht'; [| by rewrite store_policy | done].
    by rewrite (proj2 (Z.gtb_gt _ _)) by lia. }
  rewrite set_unfold. destruct (len n >=? max_size n).
  - rewrite evict_ttl by done. simpl. eexists. split; [reflexivity|].
    apply Hstore; [by rewrite sweep_policy|].
    rewrite sweep_ttl by done. rewrite decide_False; [done|].
    rewrite elem_of_expired_keys by apply (wf_ttl_nodup n Hwf).
    unfold is_expired. rewrite Ht. rewrite bool_decide_eq_true. lia.
  - eexists. split; [reflexivity|]. by apply Hstore.
Qed.

(** Without a counter policy and without an expiry, [set] is a plain
    dictionary write. *)
Lemma set_plain n now key value :
  eviction_policy n <> "LRU" -> eviction_policy n <> "LFU" -> ttl n = [] ->
  set n now key value None = OK (with_cache n (dict_set key value (cache n))).
Proof.
  intros H1 H2 Ht.
  assert (Hs : store n now key value None = with_cache n (dict_set key value (cache n))).
  { destruct (decide (eviction_policy n = "TTL")) as [Hp|Hp].
    - rewrite store_ttl by done. unfold with_cache. by rewrite Hp.
    - by rewrite store_other. }
  rewrite set_unfold. destruct (len n >=? max_size n); [|by rewrite Hs].
  destruct (decide (eviction_policy n = "TTL")) as [Hp|Hp].
  - rewrite evict_ttl by done. unfold expired_keys. rewrite Ht. simpl.
    by rewrite Hs.
  - rewrite evict_other by done. simpl. by rewrite Hs.
Qed.

Lemma run_plain_sets n (tkvs : list (Z * (string * string))) :
  eviction_policy n <> "LRU" -> eviction_policy n <> "LFU" -> ttl n = [] ->
  NoDup (keys (cache n) ++ tkvs.*2.*1) ->
  exists n',
    run n ((fun e => CallSet e.1 e.2.1 e.2.2 None) <$> tkvs) = OK n'
    /\ cache n' = cache n ++ tkvs.*2.
Proof.
  revert n. induction tkvs as [|[now [k v]] tkvs IH]; intros n H1 H2 Ht Hnd.
  - simpl. exists n. by rewrite app_nil_r.
  - cbn [fmap list_fmap run step fst snd].
    rewrite set_plain by done. cbn [mbind res_bind].
    assert (Hk : dict_get (cache n) k = None).
    { apply dict_get_None. intros Hin.
      apply NoDup_app in Hnd as (_ & Hd & _). apply (Hd k Hin). simpl. left. }
    destruct (IH (with_cache n (dict_set k v (cache n)))) as (n' & Hr & Hc);
      try done.
    + simpl. rewrite dict_set_new by done. unfold keys. rewrite fmap_app.
      simpl. rewrite <- app_assoc. done.
    + exists n'. split; [exact Hr|]. rewrite Hc. simpl.
      rewrite dict_set_new by done. by rewrite <- app_assoc.
Qed.
End reads.

(** X7.  What [get] returns on a reachable shard of any policy: absent
    when the key is on a TTL shard with an expiry strictly before the
    clock reading, in which case the shard is the one [invalidate] leaves;
    otherwise whatever the entries hold for the key (absent for a key that
    is not stored), and then neither the entries nor any expiry change: a
    read never adds or removes a key and never extends a lifetime. *)
Theorem get_returns_stored_unless_lapsed (n : CacheNode.t) (now : Z) (key : string) :
  CacheNode.reachable n ->
  exists n',
    CacheNode.get n now key =
      OK (n', if lapsed n now key then None else dict_get (CacheNode.cache n) key)
    /\ (if lapsed n now key then n' = CacheNode.invalidate n key
        else CacheNode.cache n' = CacheNode.cache n
             /\ CacheNode.ttl n' = CacheNode.ttl n).
Proof. intros Hr%reachable_wf. by apply get_result. Qed.

Lemma get_returns_stored_unless_lapsed_witness :
  exists n',
    CacheNode.get ttl_full 61 "a" = OK (n', None)
    /\ n' = CacheNode.invalidate ttl_full "a".
Proof.
  apply (get_returns_stored_unless_lapsed ttl_full 61 "a" ttl_full_reachable).
Defined.



(** X9.  On a TTL shard, overwriting a stored key without a ttl keeps the
    expiry the key already had: when the key carries an expiry that has
    not passed, [set(key, v')] stores the new value under the old expiry,
    and a [get] after that expiry returns absent. *)
Theorem ttl_overwrite_without_ttl_keeps_old_expiry
    (n : CacheNode.t) (now e : Z) (key v0 v' : string) :
  CacheNode.reachable n -> CacheNode.eviction_policy n = "TTL" ->
  dict_get (CacheNode.cache n) key = Some v0 ->
  dict_get (CacheNode.ttl n) key = Some e -> now < e ->
  exists n',
    CacheNode.set n now key v' None = OK n'
    /\ dict_get (CacheNode.cache n') key = Some v'
    /\ dict_get (CacheNode.ttl n') key = Some e
    /\ forall now', e < now' ->
         CacheNode.get n' now' key = OK (CacheNode.invalidate n' key, None).
Proof. intros Hr%reachable_wf. by apply set_ttl_keeps_expiry. Qed.

Lemma ttl_overwrite_without_ttl_keeps_old_expiry_witness :
  exists n',
    CacheNode.set ttl_full 10 "a" "new" None = OK n'
    /\ dict_get (CacheNode.cache n') "a" = Some "new"
    /\ dict_get (CacheNode.ttl n') "a" = Some 60
    /\ forall now', 60 < now' ->
         CacheNode.get n' now' "a" = OK (CacheNode.invalidate n' "a", None).
Proof.
  apply (ttl_overwrite_without_ttl_keeps_old_expiry ttl_full 10 60 "a" "x" "new").
  - apply ttl_full_reachable.
  - reflexivity.
  - reflexivity.
  - reflexivity.
  - lia.
Defined.

(** X10.  A shard whose policy is neither LRU nor LFU (a TTL shard, or one
    built with any other policy string) that is only given [set] calls
    without a ttl never evicts: after sets of pairwise distinct keys it
    holds all of them, in call order, whatever its capacity. *)
Theorem shard_without_counter_policy_is_unbounded
    (id policy : string) (size : Z) (tkvs : list (Z * (string * string))) :
  policy <> "LRU" -> policy <> "LFU" -> NoDup tkvs.*2.*1 ->
  exists n,
    CacheNode.run (CacheNode.__init__ id policy size)
      ((fun e => CacheNode.CallSet e.1 e.2.1 e.2.2 None) <$> tkvs) = OK n
    /\ CacheNode.cache n = tkvs.*2
    /\ CacheNode.len n = Z.of_nat (length tkvs).
Proof.
  intros H1 H2 Hnd.
  destruct (run_plain_sets (CacheNode.__init__ id policy size) tkvs)
    as (n & Hr & Hc); try done.
  exists n. split_and!; [done | done |].
  unfold CacheNode.len. rewrite Hc. simpl. by rewrite !length_fmap.
Qed.

Lemma shard_without_counter_policy_is_unbounded_witness :
  exists n,
    CacheNode.run (CacheNode.__init__ "node1" "TTL" 1)
      ((fun e => CacheNode.CallSet e.1 e.2.1 e.2.2 None)
         <$> [(1, ("a", "x")); (2, ("b", "y")); (3, ("c", "z"))]) = OK n
    /\ CacheNode.cache n = [(1, ("a", "x")); (2, ("b", "y")); (3, ("c", "z"))].*2
    /\ CacheNode.len n = Z.of_nat (length [(1, ("a", "x")); (2, ("b", "y")); (3, ("c", "z"))]).
Proof.
  apply (shard_without_counter_policy_is_unbounded "node1" "TTL" 1).
  - done.
  - done.
  - apply (bool_decide_unpack _). vm_compute. exact I.
Defined.

(** ** The facade, the ring and the bus, end to end *)

Section facade.
Implicit Types (h : heap) (dc : DistributedCache.t) (key : string).

Lemma get_after_set (n n' : CacheNode.t) (now now' : Z) key value ta :
  CacheNode.set n now key value ta = OK n' ->
  exists n'',
    CacheNode.get n' now' key =
      OK (n'', if lapsed n' now' key then None else Some value).
Proof.
  intros Hs. destruct (set_policy _ _ _ _ _ _ Hs) as [Hp _].
  assert (Hg : dict_get (CacheNode.cache n') key = Some value).
  { revert Hs. rewrite set_unfold.
    destruct (CacheNode.len n >=? CacheNode.max_size n).
    - destruct (CacheNode._evict n now) as [n1|]; [|done]. simpl. intros [= <-].
      rewrite store_cache. apply dict_get_set_eq.
    - intros [= <-]. rewrite store_cache. apply dict_get_set_eq. }
  destruct (policy_cases (CacheNode.eviction_policy n')) as [Hp'|Hp'|Hp'|H1 H2 H3].
  - rewrite lapsed_not_ttl by (by rewrite Hp').
    rewrite (get_lru _ _ _ value) by done. eauto.
  - rewrite lapsed_not_ttl by (by rewrite Hp').
    rewrite (get_lfu _ _ _ value) by done.
    rewrite (set_lfu_resets n now key value ta n') by congruence. eauto.
  - rewrite lapsed_ttl, (get_ttl _ _ _ value) by done.
    destruct (dict_get (CacheNode.ttl n') key) as [e|]; [destruct (now' >? e)|];
      eauto.
  - rewrite lapsed_not_ttl by done. rewrite (get_other _ _ _ value) by done. eauto.
Qed.

Lemma heap_insert_same (h : heap) (node r : ref) : (<[node := h node]> h) r = h r.
Proof.
  destruct (decide (node = r)) as [->|Hne];
    [by rewrite heap_insert_eq | by rewrite heap_insert_ne].
Qed.

Lemma ring_values_are_nodes (h : heap) (nodes : list ref) (hk : Z) (node : ref) :
  DistributedCache._create_node_map h nodes !! hk = Some node -> node ∈ nodes.
Proof.
  rewrite create_node_map_points. intros Hin%elem_of_list_to_map_2.
  rewrite elem_of_reverse in Hin. unfold vpoints in Hin.
  apply list_elem_of_bind in Hin as (node' & Hp & Hnode).
  unfold node_points in Hp. apply list_elem_of_fmap in Hp as (i & [= -> ->] & _).
  done.
Qed.

Lemma string_length_append (s t : string) :
  String.length (s +:+ t) = (String.length s + String.length t)%nat.
Proof.
  induction s as [|a s IH]; [done|].
  change (String a s +:+ t) with (String a (s +:+ t)).
  cbn [String.length]. by rewrite IH.
Qed.

Lemma string_append_inj (s1 s2 t1 t2 : string) :
  String.length t1 = String.length t2 ->
  s1 +:+ t1 = s2 +:+ t2 -> s1 = s2 /\ t1 = t2.
Proof.
  revert s2. induction s1 as [|a s1 IH]; intros [|b s2] Hlen.
  - done.
  - change ("" +:+ t1) with t1.
    change (String b s2 +:+ t2) with (String b (s2 +:+ t2)).
    intros ->. cbn [String.length] in Hlen.
    rewrite string_length_append in Hlen. lia.
  - change ("" +:+ t2) with t2.
    change (String a s1 +:+ t1) with (String a (s1 +:+ t1)).
    intros <-. cbn [String.length] in Hlen.
    rewrite string_length_append in Hlen. lia.
  - change (String a s1 +:+ t1) with (String a (s1 +:+ t1)).
    change (String b s2 +:+ t2) with (String b (s2 +:+ t2)).
    intros [= -> Heq]. destruct (IH s2 Hlen Heq) as [-> ->]. done.
Qed.
End facade.

(** X11.  Read your write through the facade.  When [set] of the cache
    returns, it has run [set] on the shard the ring locates for the key
    and has left every other shard as it was; a following [get] of the
    cache goes to the same shard and returns the value, unless that shard
    is a TTL shard on which the key's expiry is strictly before the clock
    reading, and again no other shard changes. *)
Theorem facade_set_then_get
    (dc : DistributedCache.t) (h h' : heap) (now now' : Z)
    (key value : string) (ta : option Z) :
  DistributedCache.set dc h now key value ta = OK h' ->
  exists node,
    DistributedCache._get_node dc key = OK node
    /\ CacheNode.set (h node) now key value ta = OK (h' node)
    /\ (forall r, r <> node -> h' r = h r)
    /\ exists h'',
         DistributedCache.get dc h' now' key =
           OK (h'', if lapsed (h' node) now' key then None else Some value)
         /\ forall r, r <> node -> h'' r = h r.
Proof.
  unfold DistributedCache.set, DistributedCache.get.
  destruct (DistributedCache._get_node dc key) as [node|]; [|done]. simpl.
  destruct (CacheNode.set (h node) now key value ta) as [n'|] eqn:Hs; [|done].
  simpl. intros [= <-]. exists node. rewrite heap_insert_eq.
  split_and!; [done | done | by intros r Hne; rewrite heap_insert_ne |].
  destruct (get_after_set (h node) n' now now' key value ta Hs) as [n'' Hg].
  rewrite Hg. simpl. eexists. split; [reflexivity|].
  intros r Hne. by rewrite !heap_insert_ne.
Qed.

Lemma facade_set_then_get_witness :
  exists node,
    DistributedCache._get_node main_cache "driver_1" = OK node
    /\ CacheNode.set (main_heap node) 0 "driver_1" "available" (Some 5)
       = OK ((<[2%nat := CacheNode.Build "node3" 10 [("driver_1", "available")]
                          "LFU" [] [("driver_1", 1)] []]> main_heap) node)
    /\ (forall r, r <> node ->
          (<[2%nat := CacheNode.Build "node3" 10 [("driver_1", "available")]
                        "LFU" [] [("driver_1", 1)] []]> main_heap) r = main_heap r)
    /\ exists h'',
         DistributedCache.get main_cache
           (<[2%nat := CacheNode.Build "node3" 10 [("driver_1", "available")]
                         "LFU" [] [("driver_1", 1)] []]> main_heap) 100 "driver_1" =
           OK (h'', if lapsed
                         ((<[2%nat := CacheNode.Build "node3" 10
                                        [("driver_1", "available")]
                                        "LFU" [] [("driver_1", 1)] []]> main_heap) node)
                         100 "driver_1"
                    then None else Some "available")
         /\ forall r, r <> node -> h'' r = main_heap r.
Proof.
  apply (facade_set_then_get main_cache main_heap _ 0 100 "driver_1" "available" (Some 5)).
  vm_compute. reflexivity.
Defined.



(** X13.  A cache built from at least one shard locates every key: the
    lookup returns, and the shard it returns is one of the shards the
    cache was built from. *)
Theorem locate_returns_a_listed_shard
    (h : heap) (nodes : list ref) (key : string) :
  nodes <> [] ->
  exists node,
    DistributedCache._get_node (DistributedCache.__init__ h nodes) key = OK node
    /\ node ∈ nodes.
Proof.
  intros Hne. destruct nodes as [|n0 nodes]; [done|].
  destruct (get_node_successor (DistributedCache.__init__ h (n0 :: nodes)) key)
    as (hk & node & Hg & Hm & _).
  - apply create_node_map_nonempty.
  - exists node. split; [done|].
    apply (ring_values_are_nodes h (n0 :: nodes) hk node). exact Hm.
Qed.

Lemma locate_returns_a_listed_shard_witness :
  exists node,
    DistributedCache._get_node (DistributedCache.__init__ main_heap [0; 1; 2]%nat)
      "route_1" = OK node
    /\ node ∈ [0; 1; 2]%nat.
Proof.
  apply (locate_returns_a_listed_shard main_heap [0; 1; 2]%nat "route_1"). done.
Defined.

(** X14.  The state [publish] leaves depends only on which shards are
    subscribed to the channel, not on their order or on how often each
    subscribed; and publishing the same key again changes nothing. *)
Theorem publish_state_ignores_order_and_repeats
    (ps ps' : PubSubSystem.t) (h : heap) (channel key : string) :
  (forall node, node ∈ subscribers_of ps channel <-> node ∈ subscribers_of ps' channel) ->
  forall node,
    (PubSubSystem.publish ps h channel key).1 node =
      (PubSubSystem.publish ps' h channel key).1 node
    /\ (PubSubSystem.publish ps (PubSubSystem.publish ps h channel key).1
                             channel key).1 node =
         (PubSubSystem.publish ps h channel key).1 node.
Proof.
  intros Hsame node. rewrite !publish_notify, !notify_heap. split.
  - destruct (decide (node ∈ subscribers_of ps channel)) as [Hin|Hin].
    + rewrite decide_True; [done | by apply Hsame].
    + rewrite decide_False; [done|]. by rewrite <- Hsame.
  - destruct (decide (node ∈ subscribers_of ps channel)); [|done].
    apply invalidate_idempotent.
Qed.

Lemma publish_state_ignores_order_and_repeats_witness :
  (PubSubSystem.publish (subscribe_all [("c", 0%nat); ("c", 1%nat); ("c", 0%nat)])
     warm_heap "c" "driver_1").1 0%nat =
  (PubSubSystem.publish (subscribe_all [("c", 1%nat); ("c", 0%nat)])
     warm_heap "c" "driver_1").1 0%nat
  /\ (PubSubSystem.publish (subscribe_all [("c", 0%nat); ("c", 1%nat); ("c", 0%nat)])
        (PubSubSystem.publish
           (subscribe_all [("c", 0%nat); ("c", 1%nat); ("c", 0%nat)])
           warm_heap "c" "driver_1").1 "c" "driver_1").1 0%nat =
     (PubSubSystem.publish (subscribe_all [("c", 0%nat); ("c", 1%nat); ("c", 0%nat)])
        warm_heap "c" "driver_1").1 0%nat.
Proof.
  apply (publish_state_ignores_order_and_repeats
           (subscribe_all [("c", 0%nat); ("c", 1%nat); ("c", 0%nat)])
           (subscribe_all [("c", 1%nat); ("c", 0%nat)]) warm_heap "c" "driver_1").
  intros node.
  assert (H1 : subscribers_of
                 (subscribe_all [("c", 0%nat); ("c", 1%nat); ("c", 0%nat)]) "c"
               = [0; 1; 0]%nat) by (vm_compute; reflexivity).
  assert (H2 : subscribers_of (subscribe_all [("c", 1%nat); ("c", 0%nat)]) "c"
               = [1; 0]%nat) by (vm_compute; reflexivity).
  rewrite H1, H2, !elem_of_cons, !elem_of_nil. tauto.
Defined.

(** X15.  The names hashed for the virtual points tell shards and indices
    apart: two names are equal only for the same identifier and the same
    index.  So two points can share a ring key only when two shards carry
    the same identifier or the digest itself collides. *)
Theorem vnode_name_injective (id id' : string) (i i' : nat) :
  (i < 3)%nat -> (i' < 3)%nat ->
  DistributedCache.vnode_name id i = DistributedCache.vnode_name id' i' ->
  id = id' /\ i = i'.
Proof.
  intros Hi Hi' Heq. unfold DistributedCache.vnode_name in Heq.
  apply string_append_inj in Heq as [-> Hs].
  - split; [done|].
    destruct i as [|[|[|i]]]; [| | |lia]; destruct i' as [|[|[|i']]]; try lia;
      try done.
  - destruct i as [|[|[|i]]]; [| | |lia]; destruct i' as [|[|[|i']]]; try lia;
      done.
Qed.

Lemma vnode_name_injective_witness : "node1" = "node1" /\ 2%nat = 2%nat.
Proof.
  apply (vnode_name_injective "node1" "node1" 2 2); [lia | lia | reflexivity].
Defined.

(** ** The sweep makes room, and the ring stays in step with the shards *)

Section room_and_ring.
Import CacheNode.
Implicit Types (n : t) (key k : string) (now : Z).

Lemma set_ttl_after_expiry n now key value ta k :
  wf n -> eviction_policy n = "TTL" -> max_size n <= len n ->
  is_expired n now k = true ->
  exists n',
    set n now key value ta = OK n'
    /\ dict_get (cache n') k = (if decide (k = key) then Some value else None)
    /\ len n' <= len n.
Proof.
  intros Hwf Hp Hfull Hk. rewrite set_unfold, (proj2 (Z.geb_le _ _) Hfull).
  rewrite evict_ttl by done. simpl. eexists. split; [reflexivity|].
  assert (Hin : k ∈ expired_keys n now)
    by (by apply elem_of_expired_keys; [apply (wf_ttl_nodup n Hwf)|]).
  assert (Hgone : dict_get (cache (fold_left invalidate (expired_keys n now) n)) k
                  = None) by (by rewrite sweep_cache, decide_True).
  assert (Hstored : k ∈ keys (cache n)).
  { apply (wf_ttl n Hwf). unfold is_expired in Hk.
    apply dict_get_is_Some. destruct (dict_get (ttl n) k); [eauto | done]. }
  split.
  - rewrite store_cache. destruct (decide (k = key)) as [->|Hne].
    + apply dict_get_set_eq.
    + by rewrite dict_get_set_ne.
  - apply dict_get_None in Hgone.
    pose proof (sweep_length_lost _ n k Hwf Hstored Hgone) as Hlost.
    pose proof (len_store (fold_left invalidate (expired_keys n now) n)
                  now key value ta). lia.
Qed.
End room_and_ring.

Lemma create_node_map_ids (h h' : heap) (nodes : list ref) :
  (forall r, CacheNode.node_id (h' r) = CacheNode.node_id (h r)) ->
  DistributedCache._create_node_map h' nodes = DistributedCache._create_node_map h nodes.
Proof.
  intros Hid. unfold DistributedCache._create_node_map.
  generalize (∅ : gmap Z ref). induction nodes as [|node nodes IH]; intros m; [done|].
  cbn [fold_left]. rewrite IH. f_equal.
  unfold DistributedCache.add_node, DistributedCache.add_vnode.
  generalize (seq 0 3). intros l. revert m.
  induction l as [|i l IHl]; intros m; [done|]. cbn [fold_left].
  by rewrite IHl, Hid.
Qed.

Lemma notify_node_id (subs : list ref) (key : string) (h : heap) (r : ref) :
  CacheNode.node_id ((PubSubSystem.notify subs key h).1 r) = CacheNode.node_id (h r).
Proof.
  rewrite notify_heap. case_decide; [apply invalidate_node_id | done].
Qed.

(** X16.  On a full TTL shard that holds an expired entry, [set] first
    sweeps that entry out: afterwards the expired key is absent (unless it
    is the key being set) and the shard holds no more entries than
    before. *)
Theorem ttl_set_sweeps_expired_entries
    (n : CacheNode.t) (now : Z) (key value k : string) (ta : option Z) :
  CacheNode.reachable n -> CacheNode.eviction_policy n = "TTL" ->
  CacheNode.max_size n <= CacheNode.len n ->
  is_expired n now k = true ->
  exists n',
    CacheNode.set n now key value ta = OK n'
    /\ dict_get (CacheNode.cache n') k = (if decide (k = key) then Some value else None)
    /\ CacheNode.len n' <= CacheNode.len n.
Proof. intros Hr%reachable_wf. by apply set_ttl_after_expiry. Qed.

Lemma ttl_set_sweeps_expired_entries_witness :
  exists n',
    CacheNode.set ttl_full 60 "c" "z" None = OK n'
    /\ dict_get (CacheNode.cache n') "a" = (if decide ("a" = "c") then Some "z" else None)
    /\ CacheNode.len n' <= CacheNode.len ttl_full.
Proof.
  apply (ttl_set_sweeps_expired_entries ttl_full 60 "c" "z" "a" None).
  - apply ttl_full_reachable.
  - reflexivity.
  - vm_compute. discriminate.
  - reflexivity.
Defined.

(** X17.  Requests and publications never move the ring: after a [get],
    [set] or [invalidate] of the cache that returns, and after any
    [publish], building the ring again from the same shard list gives the
    ring the cache already has. *)
Theorem ring_is_stable_under_requests
    (h : heap) (nodes : list ref) (ps : PubSubSystem.t)
    (now : Z) (key value channel : string) (ta : option Z) :
  let dc := DistributedCache.__init__ h nodes in
  (forall h' r, DistributedCache.get dc h now key = OK (h', r) ->
     DistributedCache._create_node_map h' nodes = DistributedCache.node_map dc)
  /\ (forall h', DistributedCache.set dc h now key value ta = OK h' ->
        DistributedCache._create_node_map h' nodes = DistributedCache.node_map dc)
  /\ (forall h', DistributedCache.invalidate dc h key = OK h' ->
        DistributedCache._create_node_map h' nodes = DistributedCache.node_map dc)
  /\ DistributedCache._create_node_map
       (PubSubSystem.publish ps h channel key).1 nodes = DistributedCache.node_map dc.
Proof.
  intros dc. unfold dc. simpl. split_and!.
  - intros h' r. unfold DistributedCache.get.
    destruct (DistributedCache._get_node _ key) as [node|]; [|done]. simpl.
    destruct (CacheNode.get (h node) now key) as [[n' v]|] eqn:Hg; [|done].
    simpl. intros [= <- <-]. apply create_node_map_ids. intros r.
    destruct (decide (node = r)) as [->|Hne].
    + rewrite heap_insert_eq.
      apply (step_node_id (h r) (CacheNode.CallGet now key)). simpl. by rewrite Hg.
    + by rewrite heap_insert_ne.
  - intros h'. unfold DistributedCache.set.
    destruct (DistributedCache._get_node _ key) as [node|]; [|done]. simpl.
    destruct (CacheNode.set (h node) now key value ta) as [n'|] eqn:Hs; [|done].
    simpl. intros [= <-]. apply create_node_map_ids. intros r.
    destruct (decide (node = r)) as [->|Hne].
    + rewrite heap_insert_eq.
      by apply (step_node_id (h r) (CacheNode.CallSet now key value ta)).
    + by rewrite heap_insert_ne.
  - intros h'. unfold DistributedCache.invalidate.
    destruct (DistributedCache._get_node _ key) as [node|]; [|done]. simpl.
    intros [= <-]. apply create_node_map_ids. intros r.
    destruct (decide (node = r)) as [->|Hne].
    + rewrite heap_insert_eq. apply invalidate_node_id.
    + by rewrite heap_insert_ne.
  - apply create_node_map_ids. intros r. rewrite publish_notify.
    apply notify_node_id.
Qed.

Lemma ring_is_stable_under_requests_witness :
  DistributedCache._create_node_map
    (PubSubSystem.publish (subscribe_all [("c", 0%nat); ("c", 1%nat)])
       warm_heap "c" "driver_1").1 [0; 1; 2]%nat
  = DistributedCache.node_map (DistributedCache.__init__ warm_heap [0; 1; 2]%nat).
Proof.
  apply (proj2 (proj2 (proj2
    (ring_is_stable_under_requests warm_heap [0; 1; 2]%nat
       (subscribe_all [("c", 0%nat); ("c", 1%nat)]) 0 "driver_1" "v" "c" None)))).
Defined.
